(** * Verification of bandwidth-throttle-stream

    Shallow embedding of the integer partitioner
    ([divideIntegerIntoWholeParts], [evenlyDistributeSets],
    [getFrequencyPerDivision], [getPartitionedIntegerPartAtIndex]), of the
    group scheduler ([BandwidthThrottleGroup]) and of the per-request
    buffer ([BandwidthThrottle]).

    JavaScript numbers are modelled as follows: counts, byte values, indices
    and millisecond timestamps are integers ([Z]); where a division by zero
    makes JavaScript compute with [Infinity] or [NaN], the model follows the
    value JavaScript returns in the end (the comments trace each such flow);
    the fractional quantities of the scheduler (tick duration, delay
    multiplier, per-tick allowances) are rationals ([Q]); the read cursor of
    a throttle is a rational that [process] rounds as IEEE double addition
    and subtraction do ([Double.round]). *)

From Stdlib Require Import ZArith QArith Qminmax Qround List Lia Lqa Bool.
Import ListNotations.

Open Scope Z_scope.

(* ------------------------------------------------------------------ *)
(** ** Integer partitioner *)

Module Partition.

(** [Math.ceil(a / b)] on whole numbers; [None] for [b = 0], where
    JavaScript yields [Infinity], [-Infinity] or [NaN]. [Z.div] rounds
    towards minus infinity for every sign, so
    [ceil (a / b) = - floor (- a / b)]. *)
Definition js_ceil_div (a b : Z) : option Z :=
  if b =? 0 then None else Some (- ((- a) / b)).

(** How a run of [getFrequencyPerDivision] ends. [DivisionByZero l]: a
    division by zero occurred after the whole frequencies [l] were pushed
    (see [getFrequencyPerDivision]); [OutOfFuel]: the recursion bound of
    the model was reached. *)
Inductive FrequenciesOutcome :=
| Frequencies (frequencies : list Z)
| DivisionByZero (frequencies : list Z)
| OutOfFuel.

(** One pass of [getFrequencyPerDivision] (evenlyDistributeSets.ts):
    the frequency it pushes, and the arguments of the recursive call it
    makes ([None] when [remainder] is 0 and it returns). The pass is
    [None] when one of its divisors is 0. *)
Definition frequencyPass (slotsAvailable slotsFilledGoal : Z)
  : option (Z * option (Z * Z)) :=
  match js_ceil_div slotsAvailable slotsFilledGoal with
  | None => None
  | Some normalFrequency =>
      match js_ceil_div slotsAvailable normalFrequency with
      | None => None
      | Some actualSlotsFilled =>
          let remainder := slotsFilledGoal - actualSlotsFilled in
          if remainder =? 0 then Some (normalFrequency, None)
          else Some (normalFrequency,
                     Some (slotsAvailable - slotsFilledGoal, remainder))
      end
  end.

(** [getFrequencyPerDivision(slotsAvailable, slotsFilledGoal, frequencies)].
    The JavaScript recursion is bounded here by [fuel]; [OutOfFuel] is a
    run the bound cut short (see [getFrequencyPerDivision_terminates] and
    [getFrequencyPerDivision_total]).
    [slotsFilledGoal] is never 0 in a call from [evenlyDistributeSets]
    (it is [lessCommonSet[0]], tested against 0, or a truthy remainder), so
    a division by zero comes from [normalFrequency = 0]. JavaScript then
    pushes that [0] (or [-0]), computes [actualSlotsFilled = Infinity],
    [-Infinity] or [NaN], and goes on with non-finite values only, pushing
    [0] or [NaN]; the model stops there and returns the frequencies pushed
    before, which are all the lookup loop can match (see [distributeLoop]). *)
Fixpoint getFrequencyPerDivision (fuel : nat) (slotsAvailable slotsFilledGoal : Z)
  (frequencies : list Z) : FrequenciesOutcome :=
  match fuel with
  | O => OutOfFuel
  | S fuel' =>
      match frequencyPass slotsAvailable slotsFilledGoal with
      | None => DivisionByZero frequencies
      | Some (normalFrequency, None) => Frequencies (frequencies ++ [normalFrequency])
      | Some (normalFrequency, Some (slotsAvailable', remainder)) =>
          getFrequencyPerDivision fuel' slotsAvailable' remainder
            (frequencies ++ [normalFrequency])
      end
  end.

(** The recursive calls made by [getFrequencyPerDivision]: [FreqCalls a b]
    holds when the call with arguments [b] is reached from the call [a]. *)
Inductive FreqCalls : Z * Z -> Z * Z -> Prop :=
| FreqCalls_refl : forall a, FreqCalls a a
| FreqCalls_step : forall av g nf next c,
    frequencyPass av g = Some (nf, Some next) ->
    FreqCalls next c -> FreqCalls (av, g) c.

(** The [for (const frequency of frequencies)] loop of
    [evenlyDistributeSets]: [true] when the less common value is
    returned, [false] for the more common one. JavaScript [%] is the
    truncated remainder [Z.rem]; [Math.floor(a / b)] is [Z.div]. A zero
    frequency never matches ([x % 0] is [NaN]) and makes [indexReduction]
    [Infinity], [-Infinity] or [NaN], after which no frequency matches:
    the more common value is returned. *)
Fixpoint distributeLoop (frequencies : list Z) (indexReduction adjustedLookupIndex : Z)
  : bool :=
  match frequencies with
  | [] => false
  | frequency :: rest =>
      if frequency =? 0 then false else
      let adjusted := adjustedLookupIndex - indexReduction in
      if Z.rem adjusted frequency =? 0 then true
      else distributeLoop rest (indexReduction + adjusted / frequency) adjusted
  end.

(** [[setA, setB].sort((a, b) => a[0] - b[0])]: a stable two-element sort
    that swaps only when [a[0] - b[0] > 0]. *)
Definition sortByCount (setA setB : Z * Z) : (Z * Z) * (Z * Z) :=
  if fst setB <? fst setA then (setB, setA) else (setA, setB).

(** [evenlyDistributeSets(setA, setB, lookupIndex)]; sets are
    [(count, value)] tuples. The recursion of [getFrequencyPerDivision] is
    given [|lessCommonSet[0]|] as its bound, which it never reaches
    ([getFrequencyPerDivision_total]); after a division by zero the lookup
    runs over the frequencies pushed before it. *)
Definition evenlyDistributeSets (setA setB : Z * Z) (lookupIndex : Z) : option Z :=
  let '(lessCommonSet, moreCommonSet) := sortByCount setA setB in
  if fst lessCommonSet =? 0 then Some (snd moreCommonSet) else
  let totalLength := fst setA + fst setB in
  let pick frequencies :=
    if distributeLoop frequencies 0 lookupIndex
    then Some (snd lessCommonSet) else Some (snd moreCommonSet) in
  match getFrequencyPerDivision (Z.to_nat (Z.abs (fst lessCommonSet))) totalLength
          (fst lessCommonSet) [] with
  | Frequencies frequencies => pick frequencies
  | DivisionByZero frequencies => pick frequencies
  | OutOfFuel => None
  end.

(** [divideIntegerIntoWholeParts(value, partsCount)]: [Math.floor] is
    [Z.div] and [%] is [Z.rem] (a zero remainder [-0] compares as [0]);
    [None] for [partsCount = 0], where [d] is [Infinity], [-Infinity] or
    [NaN] and [r] is [NaN]. *)
Definition divideIntegerIntoWholeParts (value partsCount : Z)
  : option ((Z * Z) * (Z * Z)) :=
  if partsCount =? 0 then None else
  let d := value / partsCount in
  let r := Z.rem value partsCount in
  Some ((partsCount - r, d), (r, if 0 <? r then d + 1 else 0)).

(** [getPartitionedIntegerPartAtIndex(value, partsCount, index)]
    (lib/Util/getPartitionedIntegerPartAtIndex.ts). For [partsCount = 0]
    the sets are [[NaN, d]] and [[NaN, 0]]; the comparator yields [NaN], so
    the sort keeps them in order; [lessCommonSet[0]] is not 0,
    [getFrequencyPerDivision(NaN, NaN)] returns [[NaN]], no index matches
    it, and the more common value [0] is returned. *)
Definition getPartitionedIntegerPartAtIndex (value partsCount index : Z) : option Z :=
  match divideIntegerIntoWholeParts value partsCount with
  | None => Some 0
  | Some (setA, setB) => evenlyDistributeSets setA setB index
  end.

(** The parts at indices [0 .. partsCount - 1], and their sum. *)
Definition parts (value partsCount : Z) : list (option Z) :=
  map (fun i => getPartitionedIntegerPartAtIndex value partsCount (Z.of_nat i))
    (seq 0 (Z.to_nat partsCount)).

Definition sumParts (l : list (option Z)) : option Z :=
  fold_right (fun o acc =>
    match o, acc with Some x, Some s => Some (x + s) | _, _ => None end) (Some 0) l.

(** The arguments every call of [getFrequencyPerDivision] receives when
    the first call has [slotsAvailable >= slotsFilledGoal >= 1]. *)
Definition FreqInv (av g : Z) : Prop := 1 <= g /\ (1 <= av \/ av = - g).

(** [Math.round(a / b)], that is [floor (a / b + 1/2)], as
    [(2a + b) / (2b)]; [None] for [b = 0], where JavaScript yields
    [Infinity] or [NaN]. *)
Definition js_round_div (a b : Z) : option Z :=
  if b =? 0 then None else Some ((2 * a + b) / (2 * b)).

(** [partitionInteger(value, partsCount)] (src/Util/partitionInteger.ts).
    [partsMap] is sorted by count as in [sortByCount]. With
    [partsMap[0][0] = 0] the period is [Infinity] and [i % Infinity = i],
    so only index 0 matches; a period of 0 gives [NaN], which matches no
    index. The loop does not run for [partsCount <= 0]. *)
Definition partitionInteger (value partsCount : Z) : list Z :=
  if partsCount <=? 0 then [] else
  let d := value / partsCount in
  let r := Z.rem value partsCount in
  let '(first, second) := sortByCount (partsCount - r, d) (r, d + 1) in
  let period := js_round_div partsCount (fst first) in
  map (fun i =>
         if match period with
            | None => Z.of_nat i =? 0
            | Some p => if p =? 0 then false else Z.rem (Z.of_nat i) p =? 0
            end
         then snd first else snd second)
    (seq 0 (Z.to_nat partsCount)).

End Partition.


(* ------------------------------------------------------------------ *)
(** ** Group scheduler *)

Module Group.
Import Partition.

(** A JavaScript number used as a byte budget: whole, or [Infinity]. *)
Inductive JsNumber := Finite (z : Z) | Infinity.

(** [Config] (src/Config.ts, lib/Config.ts). *)
Record Config := mkConfig {
  bytesPerSecond : JsNumber;
  ticksPerSecond : Z
}.

Definition defaultConfig : Config := mkConfig Infinity 40.

(** [get isThrottled(): this.bytesPerSecond < Infinity]. *)
Definition isThrottled (c : Config) : bool :=
  match bytesPerSecond c with Finite _ => true | Infinity => false end.

(** [get tickDurationMs(): 1000 / this.ticksPerSecond]; [None] is the
    [Infinity] JavaScript yields for [ticksPerSecond = 0]. *)
Definition tickDurationMs (c : Config) : option Q :=
  if ticksPerSecond c =? 0 then None
  else Some (inject_Z 1000 / inject_Z (ticksPerSecond c))%Q.

(** [IConfig]: the options a caller passes; [None] is an absent property. *)
Record IConfig := mkIConfig {
  optBytesPerSecond : option JsNumber;
  optTicksPerSecond : option Z
}.

(** [Object.assign(this.config, options)]. *)
Definition assignConfig (c : Config) (o : IConfig) : Config :=
  mkConfig
    (match optBytesPerSecond o with Some b => b | None => bytesPerSecond c end)
    (match optTicksPerSecond o with Some t => t | None => ticksPerSecond c end).

(** A [BandwidthThrottle] reference, compared by identity. *)
Definition Channel := nat.

(** The private state of a [BandwidthThrottleGroup]. [liveIntervals] are
    the intervals created by [setInterval] and not yet cleared; interval
    ids are drawn from [nextIntervalId]. *)
Record Group := mkGroup {
  config : Config;
  inFlightRequests : list Channel;
  clockIntervalId : option nat;
  liveIntervals : list nat;
  nextIntervalId : nat;
  lastTickTime : Z;
  tickIndex : Z;
  secondIndex : Z
}.

Definition setInFlight (g : Group) (l : list Channel) : Group :=
  mkGroup (config g) l (clockIntervalId g) (liveIntervals g) (nextIntervalId g)
    (lastTickTime g) (tickIndex g) (secondIndex g).

(** [constructor(options)]. *)
Definition newGroup (options : IConfig) : Group :=
  mkGroup (assignConfig defaultConfig options) [] None [] O (-1) 0 0.

(** [configure(options)]. *)
Definition configure (g : Group) (options : IConfig) : Group :=
  mkGroup (assignConfig (config g) options) (inFlightRequests g) (clockIntervalId g)
    (liveIntervals g) (nextIntervalId g) (lastTickTime g) (tickIndex g) (secondIndex g).

Definition hasTicked (g : Group) : bool := -1 <? lastTickTime g.

Definition isTicking (g : Group) : bool :=
  match clockIntervalId g with Some _ => true | None => false end.

(** [Array.prototype.indexOf]. *)
Fixpoint indexOf (l : list Channel) (x : Channel) : Z :=
  match l with
  | [] => -1
  | y :: rest =>
      if Nat.eqb y x then 0
      else let k := indexOf rest x in if k <? 0 then -1 else k + 1
  end.

(** [Array.prototype.splice(start, 1)]: a negative [start] counts from the
    end of the array. *)
Definition splice1 {A} (l : list A) (start : Z) : list A :=
  let len := Z.of_nat (length l) in
  let actualStart := if start <? 0 then Z.max (len + start) 0 else Z.min start len in
  firstn (Z.to_nat actualStart) l ++ skipn (S (Z.to_nat actualStart)) l.

(** [startClock()] together with the assignment of its result to
    [clockIntervalId]. *)
Definition startClock (g : Group) : Group :=
  let id := nextIntervalId g in
  mkGroup (config g) (inFlightRequests g) (Some id) (id :: liveIntervals g) (S id)
    (lastTickTime g) (tickIndex g) (secondIndex g).

(** [clearInterval(id)]. *)
Definition clearInterval (id : option nat) (live : list nat) : list nat :=
  match id with
  | Some i => filter (fun j => negb (Nat.eqb j i)) live
  | None => live
  end.

(** [stopClock()]. *)
Definition stopClock (g : Group) : Group :=
  mkGroup (config g) (inFlightRequests g) None
    (clearInterval (clockIntervalId g) (liveIntervals g)) (nextIntervalId g)
    (lastTickTime g) 0 0.

(** [handleRequestStart(bandwidthThrottle)]. *)
Definition handleRequestStart (g : Group) (c : Channel) : Group :=
  let g1 := setInFlight g (inFlightRequests g ++ [c]) in
  if isTicking g1 then g1 else startClock g1.

(** [handleRequestStop(bandwidthThrottle)]. *)
Definition handleRequestStop (g : Group) (c : Channel) : Group :=
  let g1 := setInFlight g (splice1 (inFlightRequests g) (indexOf (inFlightRequests g) c)) in
  if Nat.eqb (length (inFlightRequests g1)) 0 then stopClock g1 else g1.

(** The allowance [bytesPerRequestPerTick * delayMultiplier] of the loop
    body of [processInFlightRequests] ([None] would be a partition the
    model could not evaluate, which [evenlyDistributeSets_some] rules
    out). With [bytesPerSecond = Infinity], JavaScript computes
    [d = Infinity] and [r = NaN] in [divideIntegerIntoWholeParts]; the sort
    comparator then yields [NaN], read as [+0], so the sets keep their
    order, [getFrequencyPerDivision] returns [[NaN]], no index matches it,
    and the more common value [0] of the second set is returned: the
    per-request per-second share is [0]. *)
Definition allowance (c : Config) (count rotatedIndex tickIdx : Z) (delayMultiplier : Q)
  : option Q :=
  let bytesPerRequestPerSecond :=
    match bytesPerSecond c with
    | Finite bps => getPartitionedIntegerPartAtIndex bps count rotatedIndex
    | Infinity => Some 0
    end in
  match bytesPerRequestPerSecond with
  | None => None
  | Some perSecond =>
      match getPartitionedIntegerPartAtIndex perSecond (ticksPerSecond c) tickIdx with
      | None => None
      | Some bytesPerRequestPerTick =>
          Some (inject_Z bytesPerRequestPerTick * delayMultiplier)%Q
      end
  end.

(** What a throttle's [process] call does to the group: [true] when the
    request completes and the throttle calls [handleRequestStop] on
    itself. It may depend on everything dispatched earlier in the tick. *)
Definition ProcessOutcome : Type := list (Channel * option Q) -> Channel -> option Q -> bool.

(** The [for] loop of [processInFlightRequests], from index [i]; each
    iteration either advances [i] or shrinks the in-flight list, so the
    initial length of the list bounds the number of iterations. *)
Fixpoint processLoop (fuel : nat) (fin : ProcessOutcome) (period : Z)
  (delayMultiplier : Q) (i : nat) (g : Group) (trace : list (Channel * option Q))
  : Group * list (Channel * option Q) :=
  match fuel with
  | O => (g, trace)
  | S fuel' =>
      match nth_error (inFlightRequests g) i with
      | None => (g, trace)
      | Some bandwidthThrottle =>
          let currentInFlightRequestsCount := length (inFlightRequests g) in
          let rotatedIndex :=
            Z.rem (Z.of_nat i + period) (Z.of_nat currentInFlightRequestsCount) in
          let a := allowance (config g) (Z.of_nat (length (inFlightRequests g)))
                     rotatedIndex (tickIndex g) delayMultiplier in
          let g' := if fin trace bandwidthThrottle a
                    then handleRequestStop g bandwidthThrottle else g in
          let i' := if Nat.ltb (length (inFlightRequests g')) currentInFlightRequestsCount
                    then i else S i in
          processLoop fuel' fin period delayMultiplier i' g'
            (trace ++ [(bandwidthThrottle, a)])
      end
  end.

Definition elapsedTime (g : Group) (now : Z) : Z :=
  if hasTicked g then now - lastTickTime g else 0.

(** [elapsedTime < this.config.tickDurationMs]. *)
Definition elapsedBelowTick (c : Config) (elapsed : Z) : bool :=
  match tickDurationMs c with
  | Some d => negb (Qle_bool d (inject_Z elapsed))
  | None => true
  end.

(** The tick is processed (the early [return] is not taken). *)
Definition isDue (g : Group) (now : Z) : bool :=
  negb (isThrottled (config g) && hasTicked g && elapsedBelowTick (config g) (elapsedTime g now)).

(** [Math.max(1, elapsedTime / this.config.tickDurationMs)]. *)
Definition delayMultiplier (g : Group) (now : Z) : Q :=
  match tickDurationMs (config g) with
  | Some d => Qmax 1 (inject_Z (elapsedTime g now) / d)%Q
  | None => 1%Q
  end.

(** [processInFlightRequests()] at time [now] ([Date.now()]): the new
    state and the [process] calls made. *)
Definition processInFlightRequests (g : Group) (now : Z) (fin : ProcessOutcome)
  : Group * list (Channel * option Q) :=
  if negb (isDue g now) then (g, []) else
  let elapsed := elapsedTime g now in
  let m := delayMultiplier g now in
  let period := Z.rem (secondIndex g) (Z.of_nat (length (inFlightRequests g))) in
  let '(g1, trace) := processLoop (length (inFlightRequests g)) fin period m O g [] in
  if negb (isTicking g1) then (g1, trace) else
  let t := tickIndex g1 + 1 in
  let '(t', s') := if t =? ticksPerSecond (config g1) then (0, secondIndex g1 + 1)
                   else (t, secondIndex g1) in
  let last := if hasTicked g1 then lastTickTime g1 + elapsed else now in
  (mkGroup (config g1) (inFlightRequests g1) (clockIntervalId g1) (liveIntervals g1)
     (nextIntervalId g1) last t' s', trace).

(** The inputs a group receives: start and stop signals of its throttles,
    reconfiguration, and the firing of its clock interval at a time. *)
Inductive GroupEvent :=
| RequestStart (c : Channel)
| RequestStop (c : Channel)
| Configure (o : IConfig)
| ClockFires (now : Z) (fin : ProcessOutcome).

(** The interval callback only fires while an interval is live. *)
Definition groupStep (g : Group) (e : GroupEvent) : Group * list (Channel * option Q) :=
  match e with
  | RequestStart c => (handleRequestStart g c, [])
  | RequestStop c => (handleRequestStop g c, [])
  | Configure o => (configure g o, [])
  | ClockFires now fin =>
      if isTicking g then processInFlightRequests g now fin else (g, [])
  end.

(** Runs events in order, collecting all [process] calls. *)
Fixpoint runEvents (g : Group) (es : list GroupEvent) : Group * list (Channel * option Q) :=
  match es with
  | [] => (g, [])
  | e :: rest =>
      let '(g1, t1) := groupStep g e in
      let '(g2, t2) := runEvents g1 rest in
      (g2, t1 ++ t2)
  end.

(** The signals as the throttles raise them: [transform] signals start
    only while [isInFlight] is false, and [isInFlight] is only reset when
    [process] ends the request and destroys the stream, which on both
    platforms refuses later writes once a chunk has been written; so a
    throttle signals start at most once. Stop may be signalled at any time
    ([abort], completion). [started]
    records the throttles that have signalled start. *)
Fixpoint runThrottled (g : Group) (started : list Channel) (es : list GroupEvent)
  : Group * list Channel :=
  match es with
  | [] => (g, started)
  | RequestStart c :: rest =>
      if existsb (Nat.eqb c) started then runThrottled g started rest
      else runThrottled (handleRequestStart g c) (c :: started) rest
  | e :: rest => runThrottled (fst (groupStep g e)) started rest
  end.

(** A [process] outcome under which no throttle completes during a tick. *)
Definition neverFinishes : ProcessOutcome := fun _ _ _ => false.

(** [n] firings of the clock, every [step] ms from [start]. *)
Fixpoint ticksFrom (start step : Z) (n : nat) (fin : ProcessOutcome) : list GroupEvent :=
  match n with
  | O => []
  | S n' => ClockFires start fin :: ticksFrom (start + step) step n' fin
  end.

(** The total of the allowances passed to [process]. *)
Definition sumAllowances (trace : list (Channel * option Q)) : option Q :=
  fold_right (fun ca acc =>
    match snd ca, acc with
    | Some x, Some s => Some (x + s)%Q
    | _, _ => None
    end) (Some 0%Q) trace.

(** The allowance the scheduling description assigns to the throttle at
    position [i] of the in-flight list as the tick starts, with
    [rotatedIndex = (i + secondIndex mod inFlightCount) mod inFlightCount]
    (written from the description, to be compared with the loop). *)
Definition claimedAllowance (g : Group) (now : Z) (i : Z) : option Q :=
  let n := Z.of_nat (length (inFlightRequests g)) in
  match bytesPerSecond (config g) with
  | Infinity => None
  | Finite bps =>
      match getPartitionedIntegerPartAtIndex bps n ((i + secondIndex g mod n) mod n) with
      | None => None
      | Some perSecond =>
          match getPartitionedIntegerPartAtIndex perSecond (ticksPerSecond (config g))
                  (tickIndex g) with
          | None => None
          | Some t => Some (inject_Z t * delayMultiplier g now)%Q
          end
      end
  end.

(** The clock state the group keeps: an interval is live exactly while
    throttles are in flight, and the counters are reset while it is not. *)
Definition ClockInv (g : Group) : Prop :=
  (isTicking g = true <-> inFlightRequests g <> []) /\
  liveIntervals g = match clockIntervalId g with Some id => [id] | None => [] end /\
  (isTicking g = false -> tickIndex g = 0 /\ secondIndex g = 0).

End Group.

(** ** The throttles attached to a group *)

Module Registry.
Import Group.

(** The [bandwidthThrottles] array of a group, and the throttles whose
    [destroy()] has run, in the order it ran. *)
Record Registry := mkRegistry {
  bandwidthThrottles : list Channel;
  destroyedThrottles : list Channel
}.

(** [createBandwidthThrottle(contentLength)], [c] being the new throttle. *)
Definition createBandwidthThrottle (r : Registry) (c : Channel) : Registry :=
  mkRegistry (bandwidthThrottles r ++ [c]) (destroyedThrottles r).

(** [handleRequestDestroy(bandwidthThrottle)]. *)
Definition handleRequestDestroy (r : Registry) (c : Channel) : Registry :=
  mkRegistry (splice1 (bandwidthThrottles r) (indexOf (bandwidthThrottles r) c))
    (destroyedThrottles r).

(** [BandwidthThrottle.destroy()]: [handleRequestDestroy(this)], then the
    stream's own [destroy()]. *)
Definition destroyThrottle (r : Registry) (c : Channel) : Registry :=
  let r1 := handleRequestDestroy r c in
  mkRegistry (bandwidthThrottles r1) (destroyedThrottles r1 ++ [c]).

(** [Array.prototype.pop()]: the last element and the rest. *)
Definition pop (l : list Channel) : option (Channel * list Channel) :=
  match rev l with
  | [] => None
  | x :: rest => Some (x, rev rest)
  end.

(** The [while (this.bandwidthThrottles.length)] loop of [destroy()];
    every iteration shortens the array, so its length bounds the loop. *)
Fixpoint destroyLoop (fuel : nat) (r : Registry) : Registry :=
  match fuel with
  | O => r
  | S fuel' =>
      match pop (bandwidthThrottles r) with
      | None => r
      | Some (c, rest) =>
          destroyLoop fuel' (destroyThrottle (mkRegistry rest (destroyedThrottles r)) c)
      end
  end.

(** [BandwidthThrottleGroup.destroy()]. *)
Definition destroy (r : Registry) : Registry :=
  destroyLoop (length (bandwidthThrottles r)) r.

(** The elements at positions 0, 2, 4, ... of a list. *)
Fixpoint everyOther (l : list Channel) : list Channel :=
  match l with
  | x :: _ :: rest => x :: everyOther rest
  | l' => l'
  end.

End Registry.


(* ------------------------------------------------------------------ *)
(** ** IEEE double rounding *)

Module Double.

(** A JavaScript number that is not [NaN]. *)
Inductive Num := Fin (q : Q) | PosInf | NegInf.

(** [2^1074]: every finite double is a whole multiple of [2^-1074], the
    spacing of the subnormal doubles. *)
Definition scale : positive := 2 ^ 1074.

(** [a / b] rounded to the nearest integer, ties to the even one ([b > 0]). *)
Definition roundHalfEven (a b : Z) : Z :=
  let f := a / b in
  match Z.compare (2 * (a mod b)) b with
  | Lt => f
  | Gt => f + 1
  | Eq => if Z.even f then f else f + 1
  end.

(** [x] rounded to a double as IEEE 754 arithmetic rounds an exact result
    (round to nearest, ties to even). In units of [2^-1074], [|x|] is
    [K / D]; a double has 53 significant bits, so near [K / D] the doubles
    are the multiples of [2^e] units, [e = max(floor(log2(K / D)) - 52, 0)]
    (the subnormal range has [e = 0]). A result of [2^1024] or more in
    magnitude overflows to [Infinity] or [-Infinity]. *)
Definition round (x : Q) : Num :=
  let K := Z.abs (Qnum x) * 2 ^ 1074 in
  let D := Zpos (Qden x) in
  let e := Z.max (Z.log2 (K / D) - 52) 0 in
  let N := roundHalfEven K (D * 2 ^ e) * 2 ^ e in
  if 2 ^ 2098 <=? N then (if 0 <? Qnum x then PosInf else NegInf)
  else Fin ((Z.sgn (Qnum x) * N) # scale).

(** [q] is a whole multiple of [2^-1074], as every JavaScript number is. *)
Definition onGrid (q : Q) : Prop := exists k, (q == k # scale)%Q.

End Double.


(* ------------------------------------------------------------------ *)
(** ** Request throttle (lib/BandwidthThrottle.ts) *)

Module Throttle.

(** The buffering state of a [BandwidthThrottle]. [bufferLength] is the
    length of [pendingBytesBuffer] ([new Uint8Array(contentLength)]); the
    read cursor is fractional because the scheduler passes allowances
    multiplied by a fractional [delayMultiplier]. It is kept as the
    rational value of the double, which [process] computes with
    [Double.round]. *)
Record Throttle := mkThrottle {
  bufferLength : Z;
  pendingBytesCount : Z;
  pendingBytesReadIndex : Q;
  isInFlight : bool;
  destroyed : bool
}.

Definition newThrottle (contentLength : nat) : Throttle :=
  mkThrottle (Z.of_nat contentLength) 0 0 false false.

(** [maxBytesToProcess], [Infinity] by default. *)
Inductive MaxBytes := Bytes (q : Q) | Unbounded.

(** [ToIntegerOrInfinity] (truncation towards zero). *)
Definition truncQ (x : Q) : Z := if Qle_bool 0 x then Qfloor x else Qceiling x.

(** The index [TypedArray.prototype.subarray] derives from an argument. *)
Definition relativeIndex (len : Z) (x : Q) : Z :=
  let r := truncQ x in
  if r <? 0 then Z.max (len + r) 0 else Z.min r len.

(** [buffer.subarray(begin, end).length]. *)
Definition subarrayLength (len : Z) (b e : Q) : Z :=
  Z.max (relativeIndex len e - relativeIndex len b) 0.

Definition setReadIndex (t : Throttle) (ri : Q) : Throttle :=
  mkThrottle (bufferLength t) (pendingBytesCount t) ri (isInFlight t) (destroyed t).

Import Double.

(** [Math.min(a, b)] for a finite [b]. *)
Definition jsMin (a : Num) (b : Q) : Num :=
  match a with
  | Fin x => Fin (Qmin x b)
  | PosInf => Fin b
  | NegInf => NegInf
  end.

(** [a - b] for a finite [b], rounded to a double. *)
Definition jsSub (a : Num) (b : Q) : Num :=
  match a with
  | Fin x => round (x - b)
  | inf => inf
  end.

(** [a > 0]. *)
Definition jsPositive (a : Num) : bool :=
  match a with
  | Fin x => negb (Qle_bool x 0)
  | PosInf => true
  | NegInf => false
  end.

(** [endReadIndex = Math.min(this.pendingBytesReadIndex + maxBytesToProcess,
    this.pendingBytesCount)], the sum rounded to a double. *)
Definition endReadIndexOf (t : Throttle) (m : MaxBytes) : Num :=
  match m with
  | Bytes q => jsMin (round (pendingBytesReadIndex t + q)) (inject_Z (pendingBytesCount t))
  | Unbounded => Fin (inject_Z (pendingBytesCount t))
  end.

Record ProcessResult := mkProcessResult {
  after : Throttle;
  bytesPushed : Z;          (** length of the chunk given to [push], 0 when none *)
  returned : Num;           (** [bytesToPushLength] *)
  signalledStop : bool      (** [handleRequestStop(this)] was called *)
}.

(** [process(maxBytesToProcess)]; [throttled] is [this.config.isThrottled].
    [bytesToPushLength] is positive only when [endReadIndex] is finite. *)
Definition process (throttled : bool) (t : Throttle) (m : MaxBytes) : ProcessResult :=
  let startReadIndex := pendingBytesReadIndex t in
  let endReadIndex := endReadIndexOf t m in
  let bytesToPushLength := jsSub endReadIndex startReadIndex in
  let '(t1, pushed) :=
    match endReadIndex with
    | Fin e =>
        if jsPositive bytesToPushLength
        then (setReadIndex t e, subarrayLength (bufferLength t) startReadIndex e)
        else (t, 0)
    | _ => (t, 0)
    end in
  if negb (Qle_bool (inject_Z (pendingBytesCount t1)) (pendingBytesReadIndex t1))
     || negb throttled
  then mkProcessResult t1 pushed bytesToPushLength false
  else mkProcessResult
         (mkThrottle (bufferLength t1) (pendingBytesCount t1)
            (pendingBytesReadIndex t1) false true)
         pushed bytesToPushLength true.

Record TransformResult := mkTransformResult {
  transformed : Throttle;
  signalledStart : bool;
  threw : bool              (** [pendingBytesBuffer.set] threw a [RangeError] *)
}.

(** [transform(chunk)] for a chunk of [chunkLength] bytes. Whether a write
    reaches [transform] after [destroy()] is decided by the platform stream
    ([BaseTransformStream]), not by this method, and is not modelled here. *)
Definition transform (throttled : bool) (t : Throttle) (chunkLength : nat) : TransformResult :=
  let start := negb (isInFlight t) in
  let t1 := mkThrottle (bufferLength t) (pendingBytesCount t) (pendingBytesReadIndex t)
              true (destroyed t) in
  if bufferLength t1 <? pendingBytesCount t1 + Z.of_nat chunkLength
  then mkTransformResult t1 start true
  else
    let t2 := mkThrottle (bufferLength t1) (pendingBytesCount t1 + Z.of_nat chunkLength)
                (pendingBytesReadIndex t1) (isInFlight t1) (destroyed t1) in
    if throttled then mkTransformResult t2 start false
    else mkTransformResult (after (process throttled t2 Unbounded)) start false.

(** Calls made on one throttle; [throttled] is the group's configuration
    at the time of the call. *)
Inductive ThrottleCall :=
| WriteChunk (throttled : bool) (chunkLength : nat)
| Process (throttled : bool) (m : MaxBytes).

Fixpoint runThrottle (t : Throttle) (calls : list ThrottleCall) : Throttle :=
  match calls with
  | [] => t
  | WriteChunk thr n :: rest => runThrottle (transformed (transform thr t n)) rest
  | Process thr m :: rest => runThrottle (after (process thr t m)) rest
  end.

(** The amount [min(maxBytesToProcess, pendingBytesCount - pendingBytesReadIndex)]. *)
Definition claimedAmount (t : Throttle) (m : MaxBytes) : Q :=
  let avail := (inject_Z (pendingBytesCount t) - pendingBytesReadIndex t)%Q in
  match m with Bytes q => Qmin q avail | Unbounded => avail end.

(** The read cursor lies within the bytes written, which fit the buffer,
    and is a JavaScript number (a multiple of [2^-1074]). *)
Definition ThrottleInv (t : Throttle) : Prop :=
  (0 <= pendingBytesReadIndex t)%Q /\
  (pendingBytesReadIndex t <= inject_Z (pendingBytesCount t))%Q /\
  (0 <= pendingBytesCount t)%Z /\ (pendingBytesCount t <= bufferLength t)%Z /\
  onGrid (pendingBytesReadIndex t).

(** [maxBytesToProcess] is a whole number of bytes (or the default). *)
Definition wholeAllowance (m : MaxBytes) : Prop :=
  match m with
  | Bytes q => exists k : Z, (q == inject_Z k)%Q
  | Unbounded => True
  end.

Definition wholeCall (c : ThrottleCall) : Prop :=
  match c with
  | Process _ m => wholeAllowance m
  | WriteChunk _ _ => True
  end.







End Throttle.

(* ------------------------------------------------------------------ *)
(** ** Proofs: integer partitioner *)

Module PartitionProofs.
Import Partition.

Lemma js_ceil_div_pos (a b c : Z) :
  0 < b -> js_ceil_div a b = Some c -> b * (c - 1) < a <= b * c.
Proof.
  unfold js_ceil_div. intros Hb H.
  destruct (Z.eqb_spec b 0); [lia|]. injection H as <-.
  pose proof (Z.div_mod (- a) b ltac:(lia)).
  pose proof (Z.mod_pos_bound (- a) b Hb). nia.
Qed.

Lemma js_ceil_div_some (a b : Z) : b <> 0 -> exists c, js_ceil_div a b = Some c.
Proof. unfold js_ceil_div. intros Hb. destruct (Z.eqb_spec b 0); [lia|]. eauto. Qed.

Lemma frequencyPass_inv (av g : Z) :
  FreqInv av g ->
  exists nf next, frequencyPass av g = Some (nf, next) /\ nf <> 0 /\
    (forall av' g', next = Some (av', g') -> FreqInv av' g' /\ g' < g).
Proof.
  intros [Hg Hav]. unfold frequencyPass.
  destruct (js_ceil_div_some av g ltac:(lia)) as [c Hc]. rewrite Hc.
  pose proof (js_ceil_div_pos av g c ltac:(lia) Hc) as Hcb.
  destruct Hav as [Hav | ->].
  - assert (1 <= c) by nia.
    destruct (js_ceil_div_some av c ltac:(lia)) as [f Hf]. rewrite Hf.
    pose proof (js_ceil_div_pos av c f ltac:(lia) Hf) as Hfb.
    assert (1 <= f <= g) by nia.
    destruct (Z.eqb_spec (g - f) 0).
    + exists c, None. split; [reflexivity|]. split; [lia|]. discriminate.
    + exists c, (Some (av - g, g - f)). split; [reflexivity|]. split; [lia|].
      intros av' g' E. injection E as <- <-.
      split; [|lia]. split; [lia|].
      destruct (Z_lt_le_dec g av); [left; lia|right].
      assert (c = 1) by nia. subst c. assert (f = av) by nia. lia.
  - assert (c = -1) by nia. subst c.
    unfold js_ceil_div at 1. simpl.
    replace (- - g / -1) with (- g).
    + exists (-1), None. rewrite Z.opp_involutive, Z.sub_diag. simpl.
      split; [reflexivity|]. split; [lia|]. discriminate.
    + rewrite Z.opp_involutive.
      pose proof (Z.div_mod g (-1) ltac:(lia)).
      pose proof (Z.mod_neg_bound g (-1) ltac:(lia)). lia.
Qed.

Lemma FreqCalls_inv (a b : Z * Z) :
  FreqCalls a b -> FreqInv (fst a) (snd a) -> FreqInv (fst b) (snd b).
Proof.
  induction 1 as [a | av g nf [av' g'] c Hp _ IH]; [tauto|].
  intros Hinv. apply IH.
  destruct (frequencyPass_inv av g Hinv) as (nf' & next & Hp' & _ & Hn).
  rewrite Hp in Hp'. injection Hp' as _ <-. apply (Hn av' g' eq_refl).
Qed.

Lemma getFrequencyPerDivision_fuel (fuel : nat) :
  forall av g acc, FreqInv av g -> (Z.to_nat g <= fuel)%nat ->
  exists l, getFrequencyPerDivision fuel av g acc = Frequencies (acc ++ l) /\
    l <> [] /\ Forall (fun f => f <> 0) l.
Proof.
  induction fuel as [|fuel IH]; intros av g acc Hinv Hfuel.
  - destruct Hinv. lia.
  - destruct (frequencyPass_inv av g Hinv) as (nf & next & Hp & Hnf & Hn).
    simpl. rewrite Hp. destruct next as [[av' g']|].
    + destruct (Hn av' g' eq_refl) as [Hinv' Hlt].
      destruct (IH av' g' (acc ++ [nf]) Hinv' ltac:(destruct Hinv'; lia))
        as (l & -> & _ & Hl).
      exists (nf :: l). rewrite <- app_assoc. split; [reflexivity|].
      split; [discriminate|]. constructor; assumption.
    + exists [nf]. split; [reflexivity|]. split; [discriminate|]. auto.
Qed.

Lemma getFrequencyPerDivision_more_fuel (fuel : nat) :
  forall av g acc l, getFrequencyPerDivision fuel av g acc = Frequencies l ->
  getFrequencyPerDivision (S fuel) av g acc = Frequencies l.
Proof.
  induction fuel as [|fuel IH]; intros av g acc l H; [discriminate|].
  simpl in H |- *. destruct (frequencyPass av g) as [[nf [[av' g']|]]|];
    try discriminate; [|exact H].
  apply IH in H. exact H.
Qed.

Lemma getFrequencyPerDivision_fuel_le (fuel fuel' : nat) av g acc l :
  (fuel <= fuel')%nat -> getFrequencyPerDivision fuel av g acc = Frequencies l ->
  getFrequencyPerDivision fuel' av g acc = Frequencies l.
Proof.
  induction 1 as [|m _ IH]; [tauto|]. intros Hl. apply getFrequencyPerDivision_more_fuel; auto.
Qed.

Lemma js_ceil_div_spec (a b c : Z) :
  js_ceil_div a b = Some c ->
  b <> 0 /\ exists m, a = b * c - m /\ (0 < b -> 0 <= m < b) /\ (b < 0 -> b < m <= 0).
Proof.
  unfold js_ceil_div. intros H. destruct (Z.eqb_spec b 0); [discriminate|].
  injection H as <-. split; [assumption|].
  exists ((- a) mod b). pose proof (Z.div_mod (- a) b n).
  split; [lia|]. split; intros Hb.
  - apply Z.mod_pos_bound; lia.
  - pose proof (Z.mod_neg_bound (- a) b Hb). lia.
Qed.

(** A remainder the recursion goes on with is smaller than the goal it
    came from: [|slotsFilledGoal - actualSlotsFilled| < |slotsFilledGoal|]. *)
Lemma remainder_shrinks (av g nf f : Z) :
  js_ceil_div av g = Some nf -> nf <> 0 -> js_ceil_div av nf = Some f ->
  Z.abs (g - f) < Z.abs g.
Proof.
  intros H1 Hnf H2.
  destruct (js_ceil_div_spec _ _ _ H1) as (Hg & m1 & E1 & P1 & N1).
  destruct (js_ceil_div_spec _ _ _ H2) as (_ & m2 & E2 & P2 & N2).
  assert (Hn0 : nf < 0 \/ 0 < nf) by lia.
  destruct (Z.lt_trichotomy g 0) as [Hgn|[Hg0|Hgp]]; [|contradiction|].
  - specialize (N1 Hgn). destruct Hn0 as [Hn|Hp].
    + specialize (N2 Hn). rewrite (Z.abs_neq g) by lia.
      assert (0 <= (- g - 1) * (- nf - 1)) by nia.
      assert (f < 0) by nia. assert (- 2 * (- g) < f) by nia.
      apply Z.abs_lt. lia.
    + specialize (P2 Hp). rewrite (Z.abs_neq g) by lia.
      assert (0 <= (- g - 1) * (nf - 1)) by nia.
      assert (f < 0) by nia. assert (- 2 * (- g) < f) by nia.
      apply Z.abs_lt. lia.
  - specialize (P1 Hgp). destruct Hn0 as [Hn|Hp].
    + specialize (N2 Hn). rewrite (Z.abs_eq g) by lia.
      assert (0 <= (g - 1) * (- nf - 1)) by nia.
      assert (0 < f) by nia. assert (f < 2 * g) by nia.
      apply Z.abs_lt. lia.
    + specialize (P2 Hp). rewrite (Z.abs_eq g) by lia.
      assert (0 < f) by nia. assert (f <= g) by nia.
      apply Z.abs_lt. lia.
Qed.

(** From any whole arguments with [slotsFilledGoal <> 0], the bound
    [|slotsFilledGoal|] lets [getFrequencyPerDivision] finish. *)
Lemma getFrequencyPerDivision_total (fuel : nat) :
  forall av g acc, g <> 0 -> (Z.to_nat (Z.abs g) <= fuel)%nat ->
  getFrequencyPerDivision fuel av g acc <> OutOfFuel.
Proof.
  induction fuel as [|fuel IH]; intros av g acc Hg Hfuel; [lia|].
  cbn [getFrequencyPerDivision]. unfold frequencyPass.
  destruct (js_ceil_div av g) as [nf|] eqn:H1; [|discriminate].
  destruct (js_ceil_div av nf) as [f|] eqn:H2; [|discriminate].
  destruct (Z.eqb_spec (g - f) 0); [discriminate|].
  pose proof (proj1 (js_ceil_div_spec _ _ _ H2)) as Hnf.
  pose proof (remainder_shrinks av g nf f H1 Hnf H2).
  apply IH; [assumption|lia].
Qed.

(** [evenlyDistributeSets] returns the value of one of its sets, for all
    whole inputs. *)
Lemma evenlyDistributeSets_some (setA setB : Z * Z) (lookupIndex : Z) :
  exists x, evenlyDistributeSets setA setB lookupIndex = Some x /\
    (x = snd setA \/ x = snd setB).
Proof.
  unfold evenlyDistributeSets, sortByCount.
  destruct (fst setB <? fst setA); cbn [fst snd];
  match goal with |- context [if fst ?l =? 0 then _ else _] =>
    destruct (Z.eqb_spec (fst l) 0) as [|Hne]; [eauto|] end;
  match goal with |- context [getFrequencyPerDivision ?fu ?a ?b []] =>
    destruct (getFrequencyPerDivision fu a b []) eqn:Ef;
    [| |exfalso; exact (getFrequencyPerDivision_total _ _ _ _ Hne (le_n _) Ef)] end;
  match goal with |- context [distributeLoop ?l 0 lookupIndex] =>
    destruct (distributeLoop l 0 lookupIndex) end; eauto.
Qed.

(** Every part is the lower value [value / partsCount] or the one above. *)
Lemma getPartitionedIntegerPartAtIndex_values (value partsCount index : Z) :
  0 <= value -> 1 <= partsCount ->
  exists x, getPartitionedIntegerPartAtIndex value partsCount index = Some x /\
    (x = value / partsCount \/ x = value / partsCount + 1).
Proof.
  intros Hv Hn. unfold getPartitionedIntegerPartAtIndex, divideIntegerIntoWholeParts.
  destruct (Z.eqb_spec partsCount 0); [lia|].
  pose proof (Z.rem_bound_pos value partsCount Hv ltac:(lia)) as Hr.
  set (d := value / partsCount). set (r := Z.rem value partsCount) in *.
  unfold evenlyDistributeSets, sortByCount. simpl fst. simpl snd.
  assert (Hfreq : forall less, 1 <= less -> less <= partsCount ->
    exists l, getFrequencyPerDivision (Z.to_nat (Z.abs less))
      (partsCount - r + r) less [] = Frequencies l).
  { intros less H1 H2. rewrite Z.abs_eq by lia.
    destruct (getFrequencyPerDivision_fuel (Z.to_nat less) (partsCount - r + r) less []
      ltac:(split; lia) (le_n _)) as (l & E & _ & Hl).
    exists l. exact E. }
  destruct (Z.ltb_spec r (partsCount - r)) as [Hlt | Hge]; simpl.
  - destruct (Z.eqb_spec r 0) as [Hr0 | Hr0]; [eauto|].
    destruct (Hfreq r ltac:(lia) ltac:(lia)) as (l & ->).
    destruct (distributeLoop l 0 index);
      destruct (Z.ltb_spec 0 r); try lia; eauto.
  - destruct (Z.eqb_spec (partsCount - r) 0); [lia|].
    destruct (Hfreq (partsCount - r) ltac:(lia) ltac:(lia)) as (l & ->).
    destruct (distributeLoop l 0 index);
      destruct (Z.ltb_spec 0 r); try lia; eauto.
Qed.

(** C1 (code_bug): the sum of the parts over all indices is not always
    the partitioned value. For [value = 24], [partsCount = 50] the parts
    sum to 25: [getFrequencyPerDivision(50, 24)] recurses on
    [slotsAvailable - slotsFilledGoal = 26] slots although only 17 slots
    were filled by the first frequency, so 25 indices get the value 1. *)
Theorem getPartitionedIntegerPartAtIndex_sum_24_50 :
  sumParts (parts 24 50) = Some 25.
Proof. vm_compute. reflexivity. Qed.

(** C3: for [value >= 0] and [partsCount >= 1], any two parts at indices
    in [[0, partsCount)] are defined and differ by at most 1. *)
Theorem getPartitionedIntegerPartAtIndex_spread (value partsCount i j : Z) :
  0 <= value -> 1 <= partsCount -> 0 <= i < partsCount -> 0 <= j < partsCount ->
  exists a b, getPartitionedIntegerPartAtIndex value partsCount i = Some a /\
    getPartitionedIntegerPartAtIndex value partsCount j = Some b /\ Z.abs (a - b) <= 1.
Proof.
  intros Hv Hn _ _.
  destruct (getPartitionedIntegerPartAtIndex_values value partsCount i Hv Hn) as (a & Ha & Hav).
  destruct (getPartitionedIntegerPartAtIndex_values value partsCount j Hv Hn) as (b & Hb & Hbv).
  exists a, b. split; [exact Ha|]. split; [exact Hb|]. lia.
Qed.

Lemma getPartitionedIntegerPartAtIndex_spread_witness :
  (0 <= 24 /\ 1 <= 50 /\ 0 <= 0 < 50 /\ 0 <= 1 < 50) /\
  exists a b, getPartitionedIntegerPartAtIndex 24 50 0 = Some a /\
    getPartitionedIntegerPartAtIndex 24 50 1 = Some b /\ Z.abs (a - b) <= 1.
Proof.
  split; [lia|].
  apply (getPartitionedIntegerPartAtIndex_spread 24 50 0 1); lia.
Defined.

(** C10: for [slotsAvailable >= slotsFilledGoal >= 1],
    [getFrequencyPerDivision] terminates with a non-empty list of
    frequencies (the same for every recursion bound at least
    [slotsFilledGoal]); at every call it makes, both divisors
    ([slotsFilledGoal] and [normalFrequency]) are non-zero, and the
    recursive call it makes next has a [slotsFilledGoal] that is smaller
    and at least 1. *)
Theorem getFrequencyPerDivision_terminates (slotsAvailable slotsFilledGoal : Z) :
  1 <= slotsFilledGoal -> slotsFilledGoal <= slotsAvailable ->
  (exists frequencies, frequencies <> [] /\
     forall fuel, (Z.to_nat slotsFilledGoal <= fuel)%nat ->
       getFrequencyPerDivision fuel slotsAvailable slotsFilledGoal [] = Frequencies frequencies) /\
  (forall av g, FreqCalls (slotsAvailable, slotsFilledGoal) (av, g) ->
     g <> 0 /\ exists nf next, frequencyPass av g = Some (nf, next) /\ nf <> 0 /\
       forall av' g', next = Some (av', g') -> 1 <= g' < g).
Proof.
  intros Hg Hav.
  assert (Hinv : FreqInv slotsAvailable slotsFilledGoal) by (split; lia).
  split.
  - destruct (getFrequencyPerDivision_fuel (Z.to_nat slotsFilledGoal)
      slotsAvailable slotsFilledGoal [] Hinv (le_n _)) as (l & E & Hne & _).
    exists l. split; [exact Hne|].
    intros fuel Hfuel. apply (getFrequencyPerDivision_fuel_le _ _ _ _ _ _ Hfuel E).
  - intros av g Hc.
    pose proof (FreqCalls_inv _ _ Hc Hinv) as Hi. simpl in Hi.
    split; [destruct Hi; lia|].
    destruct (frequencyPass_inv av g Hi) as (nf & next & Hp & Hnf & Hn).
    exists nf, next. split; [exact Hp|]. split; [exact Hnf|].
    intros av' g' E. destruct (Hn av' g' E) as [[H1 _] H2]. lia.
Qed.

Lemma getFrequencyPerDivision_terminates_witness :
  (1 <= 24 /\ 24 <= 50) /\
  ((exists frequencies, frequencies <> [] /\
     forall fuel, (Z.to_nat 24 <= fuel)%nat ->
       getFrequencyPerDivision fuel 50 24 [] = Frequencies frequencies) /\
  (forall av g, FreqCalls (50, 24) (av, g) ->
     g <> 0 /\ exists nf next, frequencyPass av g = Some (nf, next) /\ nf <> 0 /\
       forall av' g', next = Some (av', g') -> 1 <= g' < g)).
Proof.
  split; [lia|].
  apply (getFrequencyPerDivision_terminates 50 24); lia.
Defined.

End PartitionProofs.


(* ------------------------------------------------------------------ *)
(** ** Proofs: double rounding *)

Module DoubleProofs.
Import Double.

Lemma scale_Z : Zpos scale = 2 ^ 1074.
Proof. reflexivity. Qed.

Lemma roundHalfEven_bounds (a b : Z) :
  0 < b -> a / b <= roundHalfEven a b <= a / b + 1.
Proof.
  intros Hb. unfold roundHalfEven.
  destruct (Z.compare _ _); [destruct (Z.even _)| |]; lia.
Qed.

Lemma roundHalfEven_exact (a b : Z) :
  0 < b -> a mod b = 0 -> roundHalfEven a b = a / b.
Proof.
  intros Hb Hm. unfold roundHalfEven. rewrite Hm. simpl.
  destruct b; [lia| reflexivity |lia].
Qed.

Lemma pow_pos' (e : Z) : 0 <= e -> 0 < 2 ^ e.
Proof. intros; apply Z.pow_pos_nonneg; lia. Qed.

Lemma round_grid (x r : Q) : round x = Fin r -> onGrid r.
Proof.
  unfold round. intros H.
  destruct (2 ^ 2098 <=? _); [destruct (0 <? Qnum x); discriminate|].
  injection H as <-. eexists. reflexivity.
Qed.

Lemma round_nonpos (x : Q) :
  (x <= 0)%Q -> round x = NegInf \/ exists r, round x = Fin r /\ (r <= 0)%Q.
Proof.
  intros Hx. assert (Hn : Qnum x <= 0) by (unfold Qle in Hx; simpl in Hx; lia).
  unfold round.
  set (K := Z.abs (Qnum x) * 2 ^ 1074). set (D := Zpos (Qden x)).
  set (e := Z.max (Z.log2 (K / D) - 52) 0).
  assert (He : 0 <= e) by lia.
  assert (HK : 0 <= K) by (unfold K; pose proof (pow_pos' 1074 ltac:(lia)); nia).
  assert (HD : 0 < D) by reflexivity.
  assert (Hb : 0 < D * 2 ^ e) by (pose proof (pow_pos' e He); nia).
  pose proof (roundHalfEven_bounds K (D * 2 ^ e) Hb) as Hr.
  pose proof (Z.div_pos K (D * 2 ^ e) HK Hb).
  destruct (2 ^ 2098 <=? _).
  - left. destruct (Z.ltb_spec 0 (Qnum x)); [lia|reflexivity].
  - right. eexists. split; [reflexivity|].
    unfold Qle; cbn [Qnum Qden inject_Z].
    assert (Z.sgn (Qnum x) <= 0) by (destruct (Qnum x); simpl; lia).
    pose proof (pow_pos' e He).
    assert (0 <= roundHalfEven K (D * 2 ^ e) * 2 ^ e) by nia.
    rewrite Z.mul_1_r. apply Z.mul_nonpos_nonneg; assumption.
Qed.

Lemma round_pos (x : Q) :
  (1 # scale <= x)%Q -> round x = PosInf \/ exists r, round x = Fin r /\ (0 < r)%Q.
Proof.
  intros Hx. unfold Qle in Hx. simpl in Hx. rewrite scale_Z in Hx.
  assert (Hn : 0 < Qnum x) by (pose proof (pow_pos' 1074 ltac:(lia)); nia).
  unfold round.
  set (K := Z.abs (Qnum x) * 2 ^ 1074). set (D := Zpos (Qden x)).
  assert (HD : 0 < D) by reflexivity.
  assert (HKD : 1 <= K / D).
  { apply Z.div_le_lower_bound; [lia|]. unfold K, D. rewrite Z.abs_eq by lia. lia. }
  set (L := Z.log2 (K / D)).
  assert (HL : 2 ^ L <= K / D) by (apply Z.log2_spec; lia).
  assert (HL0 : 0 <= L) by apply Z.log2_nonneg.
  set (e := Z.max (L - 52) 0).
  assert (He : 0 <= e) by lia.
  assert (HeL : 2 ^ e <= 2 ^ L) by (apply Z.pow_le_mono_r; lia).
  assert (Hpe : 0 < 2 ^ e) by (apply pow_pos'; exact He).
  assert (Hb : 0 < D * 2 ^ e) by nia.
  pose proof (roundHalfEven_bounds K (D * 2 ^ e) Hb) as Hr.
  assert (Hq : 1 <= K / (D * 2 ^ e)).
  { rewrite <- Z.div_div by lia. apply Z.div_le_lower_bound; lia. }
  destruct (2 ^ 2098 <=? _).
  - left. destruct (Z.ltb_spec 0 (Qnum x)); [reflexivity|lia].
  - right. eexists. split; [reflexivity|].
    unfold Qlt; cbn [Qnum Qden inject_Z]. rewrite Z.sgn_pos by exact Hn.
    assert (1 <= roundHalfEven K (D * 2 ^ e)) by lia.
    assert (0 < roundHalfEven K (D * 2 ^ e) * 2 ^ e) by nia. lia.
Qed.

Lemma round_large (x : Q) :
  (inject_Z (2 ^ 53) <= x)%Q ->
  round x = PosInf \/ exists r, round x = Fin r /\ (inject_Z (2 ^ 53) <= r)%Q.
Proof.
  intros Hx. unfold Qle in Hx. simpl in Hx.
  assert (Hn : 0 < Qnum x) by (pose proof (pow_pos' 53 ltac:(lia)); nia).
  unfold round.
  set (K := Z.abs (Qnum x) * 2 ^ 1074). set (D := Zpos (Qden x)).
  assert (HD : 0 < D) by reflexivity.
  assert (HKD : 2 ^ 1127 <= K / D).
  { apply Z.div_le_lower_bound; [lia|]. unfold K, D. rewrite Z.abs_eq by lia.
    replace (2 ^ 1127) with (2 ^ 53 * 2 ^ 1074) by reflexivity.
    pose proof (pow_pos' 1074 ltac:(lia)). nia. }
  set (L := Z.log2 (K / D)).
  assert (HL : 2 ^ L <= K / D) by (apply Z.log2_spec; pose proof (pow_pos' 1127 ltac:(lia)); lia).
  assert (HL1 : 1127 <= L).
  { unfold L. rewrite <- (Z.log2_pow2 1127) by lia. apply Z.log2_le_mono. exact HKD. }
  set (e := Z.max (L - 52) 0).
  assert (He : e = L - 52) by lia.
  assert (Hpe : 0 < 2 ^ e) by (apply pow_pos'; lia).
  assert (Hb : 0 < D * 2 ^ e) by nia.
  pose proof (roundHalfEven_bounds K (D * 2 ^ e) Hb) as Hr.
  assert (HLe : 2 ^ L = 2 ^ 52 * 2 ^ e)
    by (rewrite <- Z.pow_add_r by lia; f_equal; lia).
  assert (Hq : 2 ^ 52 <= K / (D * 2 ^ e)).
  { rewrite <- Z.div_div by lia. apply Z.div_le_lower_bound; lia. }
  assert (H1127 : 2 ^ 1127 <= 2 ^ L) by (apply Z.pow_le_mono_r; lia).
  destruct (2 ^ 2098 <=? _).
  - left. destruct (Z.ltb_spec 0 (Qnum x)); [reflexivity|lia].
  - right. eexists. split; [reflexivity|].
    unfold Qle; cbn [Qnum Qden inject_Z]. rewrite Z.sgn_pos by exact Hn. rewrite scale_Z.
    replace (2 ^ 1127) with (2 ^ 53 * 2 ^ 1074) in H1127 by reflexivity.
    pose proof (pow_pos' 1074 ltac:(lia)). pose proof (pow_pos' 53 ltac:(lia)). nia.
Qed.

Lemma round_int (x : Q) (z : Z) :
  (x == inject_Z z)%Q -> Z.abs z <= 2 ^ 53 ->
  exists r, round x = Fin r /\ (r == inject_Z z)%Q.
Proof.
  intros Hx Hz. unfold Qeq in Hx. simpl in Hx. rewrite Z.mul_1_r in Hx.
  unfold round.
  set (K := Z.abs (Qnum x) * 2 ^ 1074). set (D := Zpos (Qden x)).
  assert (HD : 0 < D) by reflexivity.
  assert (HK : K = (Z.abs z * 2 ^ 1074) * D)
    by (unfold K, D; rewrite Hx, Z.abs_mul; simpl; lia).
  assert (HKD : K / D = Z.abs z * 2 ^ 1074) by (rewrite HK; apply Z.div_mul; lia).
  rewrite HKD.
  set (e := Z.max (Z.log2 (Z.abs z * 2 ^ 1074) - 52) 0).
  assert (He : 0 <= e) by lia.
  assert (Hpe : 0 < 2 ^ e) by (apply pow_pos'; exact He).
  assert (Hdiv : (Z.abs z * 2 ^ 1074) mod 2 ^ e = 0).
  { destruct (Z.eq_dec z 0) as [->|Hz0]; [reflexivity|].
    assert (Hl : e = Z.log2 (Z.abs z) + 1022).
    { unfold e. rewrite Z.log2_mul_pow2 by lia.
      pose proof (Z.log2_nonneg (Z.abs z)). lia. }
    assert (Hl53 : Z.log2 (Z.abs z) <= 53).
    { rewrite <- (Z.log2_pow2 53) by lia. apply Z.log2_le_mono. exact Hz. }
    destruct (Z.eq_dec (Z.log2 (Z.abs z)) 53) as [E53|N53].
    - assert (Habs : Z.abs z = 2 ^ 53).
      { pose proof (Z.log2_spec (Z.abs z) ltac:(lia)) as [Hs _]. rewrite E53 in Hs. lia. }
      rewrite Hl, E53, Habs. reflexivity.
    - apply Z.mod_divide; [lia|].
      exists (Z.abs z * 2 ^ (1074 - e)).
      rewrite <- Z.mul_assoc, <- Z.pow_add_r by lia. f_equal. f_equal. lia. }
  assert (Hb : 0 < D * 2 ^ e) by nia.
  assert (Hm : K mod (D * 2 ^ e) = 0).
  { rewrite HK, (Z.mul_comm D (2 ^ e)). rewrite Z.mul_mod_distr_r by lia. rewrite Hdiv. lia. }
  rewrite (roundHalfEven_exact K (D * 2 ^ e) Hb Hm).
  assert (HN : K / (D * 2 ^ e) * 2 ^ e = Z.abs z * 2 ^ 1074).
  { rewrite <- Z.div_div by lia. rewrite HKD.
    apply Z.mod_divide in Hdiv; [|lia]. destruct Hdiv as [c Hc]. rewrite Hc.
    rewrite Z.div_mul by lia. reflexivity. }
  rewrite HN.
  assert (Hsmall : Z.abs z * 2 ^ 1074 < 2 ^ 2098).
  { replace (2 ^ 2098) with (2 ^ 1024 * 2 ^ 1074) by reflexivity.
    assert (2 ^ 53 < 2 ^ 1024) by (apply Z.pow_lt_mono_r; lia).
    pose proof (pow_pos' 1074 ltac:(lia)). nia. }
  destruct (Z.leb_spec (2 ^ 2098) (Z.abs z * 2 ^ 1074)); [lia|].
  eexists. split; [reflexivity|].
  unfold Qeq; cbn [Qnum Qden inject_Z]. rewrite scale_Z.
  assert (Hs : Z.sgn (Qnum x) = Z.sgn z).
  { rewrite Hx, Z.sgn_mul. unfold D in HD. simpl. lia. }
  rewrite Hs, Z.mul_1_r, Z.mul_assoc, (Z.mul_comm (Z.sgn z)), Z.abs_sgn. reflexivity.
Qed.

Lemma onGrid_eq (x y : Q) : (x == y)%Q -> onGrid x -> onGrid y.
Proof. intros E [k Hk]. exists k. rewrite <- E. exact Hk. Qed.

Lemma onGrid_Z (z : Z) : onGrid (inject_Z z).
Proof.
  exists (z * Zpos scale). unfold Qeq; cbn [Qnum Qden inject_Z]. lia.
Qed.

Lemma onGrid_sub (x y : Q) : onGrid x -> onGrid y -> onGrid (x - y).
Proof.
  intros [a Ha] [b Hb]. exists (a - b). rewrite Ha, Hb.
  unfold Qminus, Qplus, Qopp, Qeq; cbn [Qnum Qden]. rewrite Pos2Z.inj_mul. ring.
Qed.

Lemma onGrid_min (x y : Q) : onGrid x -> onGrid y -> onGrid (Qmin x y).
Proof.
  intros Hx Hy. destruct (Q.min_spec x y) as [[_ E]|[_ E]];
    apply (onGrid_eq _ _ (Qeq_sym _ _ E)); assumption.
Qed.

(** A positive number is at least the least positive double. *)
Lemma onGrid_pos (x : Q) : onGrid x -> (0 < x)%Q -> (1 # scale <= x)%Q.
Proof.
  intros [k Hk] H. rewrite Hk in *. unfold Qlt, Qle in *; cbn [Qnum Qden] in *.
  pose proof (Pos2Z.is_pos scale). nia.
Qed.

End DoubleProofs.

(* ------------------------------------------------------------------ *)
(** ** Proofs: group scheduler *)

Module GroupProofs.
Import Partition PartitionProofs Group.

(** *** Lists: [indexOf] and [splice] *)

Lemma removeAt_In {A} (n : nat) (l : list A) (x : A) :
  In x (firstn n l ++ skipn (S n) l) -> In x l.
Proof.
  revert n; induction l as [|a l IH]; intros [|n]; simpl; auto.
  intros [->|H]; [left; reflexivity|right; eauto].
Qed.

Lemma removeAt_NoDup {A} (n : nat) (l : list A) :
  NoDup l -> NoDup (firstn n l ++ skipn (S n) l).
Proof.
  revert n; induction l as [|a l IH]; intros [|n] Hl; simpl; auto.
  - inversion Hl; assumption.
  - inversion Hl as [|? ? Ha Hl']; subst. constructor; [|auto].
    intros Hin. apply Ha. eapply removeAt_In; eauto.
Qed.

Lemma splice1_In {A} (l : list A) (k : Z) (x : A) : In x (splice1 l k) -> In x l.
Proof. unfold splice1. apply removeAt_In. Qed.

Lemma splice1_NoDup {A} (l : list A) (k : Z) : NoDup l -> NoDup (splice1 l k).
Proof. unfold splice1. apply removeAt_NoDup. Qed.

Lemma splice1_nil {A} (k : Z) : splice1 (@nil A) k = [].
Proof. unfold splice1. destruct (Z.to_nat _); reflexivity. Qed.

Lemma splice1_at {A} (l : list A) (i : nat) :
  (i < length l)%nat -> splice1 l (Z.of_nat i) = firstn i l ++ skipn (S i) l.
Proof.
  intros Hi. unfold splice1.
  replace (Z.of_nat i <? 0) with false by (symmetry; apply Z.ltb_ge; lia).
  rewrite Z.min_l by lia. rewrite Nat2Z.id. reflexivity.
Qed.

Lemma indexOf_NoDup (l : list Channel) (i : nat) (x : Channel) :
  NoDup l -> nth_error l i = Some x -> indexOf l x = Z.of_nat i.
Proof.
  revert i; induction l as [|a l IH]; intros i Hl Hi; [destruct i; discriminate|].
  inversion Hl as [|? ? Ha Hl']; subst. destruct i as [|i]; simpl in Hi |- *.
  - injection Hi as ->. rewrite Nat.eqb_refl. reflexivity.
  - destruct (Nat.eqb_spec a x) as [->|Hax].
    + exfalso. apply Ha. eapply nth_error_In; eauto.
    + rewrite (IH i Hl' Hi). replace (Z.of_nat i <? 0) with false by (symmetry; apply Z.ltb_ge; lia).
      lia.
Qed.

Lemma skipn_nth_error {A} (l : list A) (i : nat) (x : A) :
  nth_error l i = Some x -> skipn i l = x :: skipn (S i) l.
Proof.
  revert i; induction l as [|a l IH]; intros [|i] H; simpl in H |- *;
    try discriminate; [injection H as ->; reflexivity|auto].
Qed.

Lemma skipn_removeAt {A} (l : list A) (i : nat) :
  (i <= length l)%nat -> skipn i (firstn i l ++ skipn (S i) l) = skipn (S i) l.
Proof.
  intros Hi. rewrite skipn_app, skipn_all2 by (rewrite length_firstn; lia).
  rewrite length_firstn, Nat.min_l by exact Hi. rewrite Nat.sub_diag. reflexivity.
Qed.

(** *** Facts about [handleRequestStop] and the loop *)

Lemma handleRequestStop_inFlight (g : Group) (c : Channel) :
  inFlightRequests (handleRequestStop g c) =
  splice1 (inFlightRequests g) (indexOf (inFlightRequests g) c).
Proof. unfold handleRequestStop. destruct (Nat.eqb _ 0); reflexivity. Qed.

Lemma handleRequestStop_config (g : Group) (c : Channel) :
  config (handleRequestStop g c) = config g.
Proof. unfold handleRequestStop. destruct (Nat.eqb _ 0); reflexivity. Qed.

(** Every property kept by [handleRequestStop] is kept by the loop. *)
Lemma processLoop_preserves (P : Group -> Prop) :
  (forall g c, P g -> P (handleRequestStop g c)) ->
  forall fuel fin period m i g trace, P g ->
  P (fst (processLoop fuel fin period m i g trace)).
Proof.
  intros Hstop fuel. induction fuel as [|fuel IH]; intros fin period m i g trace Hg;
    simpl; [exact Hg|].
  destruct (nth_error (inFlightRequests g) i) as [c|]; [|exact Hg].
  apply IH. destruct (fin _ _ _); auto.
Qed.

(** *** The clock invariant *)

Lemma ClockInv_newGroup (o : IConfig) : ClockInv (newGroup o).
Proof.
  repeat split; simpl; try discriminate; try reflexivity.
  intros H; contradiction.
Qed.

Lemma ClockInv_start (g : Group) (c : Channel) : ClockInv g -> ClockInv (handleRequestStart g c).
Proof.
  intros (H1 & H2 & H3). unfold handleRequestStart, isTicking, setInFlight in *; simpl in *.
  destruct (clockIntervalId g) as [id|] eqn:E; simpl.
  - repeat split; auto; try discriminate.
    intros Hc; destruct (inFlightRequests g); discriminate.
  - unfold startClock; simpl. rewrite H2.
    repeat split; auto; try discriminate.
    intros Hc; destruct (inFlightRequests g); discriminate.
Qed.

Lemma ClockInv_stop (g : Group) (c : Channel) : ClockInv g -> ClockInv (handleRequestStop g c).
Proof.
  intros (H1 & H2 & H3). unfold handleRequestStop, setInFlight; simpl.
  set (l := splice1 (inFlightRequests g) (indexOf (inFlightRequests g) c)).
  destruct (Nat.eqb_spec (length l) 0) as [E|E].
  - unfold stopClock; simpl. apply length_zero_iff_nil in E.
    repeat split; simpl; try discriminate; try reflexivity.
    + intros Hc; contradiction.
    + rewrite H2. destruct (clockIntervalId g) as [id|]; simpl; [|reflexivity].
      rewrite Nat.eqb_refl. reflexivity.
  - unfold isTicking in *; simpl in *.
    assert (Hne : inFlightRequests g <> []).
    { intros Hn. apply E. unfold l. rewrite Hn, splice1_nil. reflexivity. }
    apply H1 in Hne.
    destruct (clockIntervalId g) as [id|] eqn:Ec; [|discriminate].
    unfold ClockInv, isTicking; simpl.
    split; [split; [intros _; destruct l; [contradiction|discriminate] | reflexivity]|].
    split; [exact H2|discriminate].
Qed.

Lemma ClockInv_tick (g : Group) (now : Z) (fin : ProcessOutcome) :
  ClockInv g -> ClockInv (fst (processInFlightRequests g now fin)).
Proof.
  intros Hg. unfold processInFlightRequests.
  destruct (negb (isDue g now)); [exact Hg|].
  destruct (processLoop _ fin _ _ O g []) as [g1 trace] eqn:E.
  assert (H1 : ClockInv g1).
  { replace g1 with (fst (processLoop (length (inFlightRequests g)) fin
      (Z.rem (secondIndex g) (Z.of_nat (length (inFlightRequests g))))
      (delayMultiplier g now) O g [])) by (rewrite E; reflexivity).
    apply processLoop_preserves; [apply ClockInv_stop|exact Hg]. }
  destruct (isTicking g1) eqn:T; simpl; [|exact H1].
  destruct H1 as (H1a & H1b & _). unfold isTicking in T, H1a.
  destruct (clockIntervalId g1) as [id|] eqn:Ec; [|discriminate].
  destruct (tickIndex g1 + 1 =? ticksPerSecond (config g1));
    unfold ClockInv, isTicking; simpl; rewrite ?Ec;
    (split; [exact H1a|split; [exact H1b|discriminate]]).
Qed.

Lemma ClockInv_step (g : Group) (e : GroupEvent) : ClockInv g -> ClockInv (fst (groupStep g e)).
Proof.
  intros Hg. destruct e as [c|c|o|now fin]; simpl.
  - apply ClockInv_start, Hg.
  - apply ClockInv_stop, Hg.
  - exact Hg.
  - destruct (isTicking g); [apply ClockInv_tick, Hg|exact Hg].
Qed.

Lemma ClockInv_run (es : list GroupEvent) :
  forall g, ClockInv g -> ClockInv (fst (runEvents g es)).
Proof.
  induction es as [|e es IH]; intros g Hg; simpl; [exact Hg|].
  destruct (groupStep g e) as [g1 t1] eqn:E1.
  destruct (runEvents g1 es) as [g2 t2] eqn:E2. simpl.
  replace g2 with (fst (runEvents g1 es)) by (rewrite E2; reflexivity).
  apply IH. replace g1 with (fst (groupStep g e)) by (rewrite E1; reflexivity).
  apply ClockInv_step, Hg.
Qed.

(** C5: in every state reached from a new group through start and stop
    signals, reconfigurations and clock ticks, an interval is running iff
    the in-flight list is non-empty, the live intervals are exactly the
    one recorded in [clockIntervalId] (so at most one exists), and while
    no interval runs [tickIndex] and [secondIndex] are 0. *)
Theorem group_clock_invariant (options : IConfig) (es : list GroupEvent) :
  let g := fst (runEvents (newGroup options) es) in
  (clockIntervalId g <> None <-> inFlightRequests g <> []) /\
  liveIntervals g = match clockIntervalId g with Some id => [id] | None => [] end /\
  (length (liveIntervals g) <= 1)%nat /\
  (clockIntervalId g = None -> tickIndex g = 0 /\ secondIndex g = 0).
Proof.
  intros g.
  destruct (ClockInv_run es (newGroup options) (ClockInv_newGroup options))
    as (H1 & H2 & H3).
  change (fst (runEvents (newGroup options) es)) with g in H1, H2, H3.
  unfold isTicking in H1, H3.
  destruct (clockIntervalId g) as [id|] eqn:Ec.
  - split; [split; [intros _; apply H1; reflexivity|discriminate]|].
    split; [exact H2|]. rewrite H2. split; [simpl; lia|discriminate].
  - split; [split; [intros C; contradiction|intros Hne; apply H1 in Hne; discriminate]|].
    split; [exact H2|]. rewrite H2. split; [simpl; lia|intros _; apply H3; reflexivity].
Qed.

(** *** The loop visits every throttle once *)

(** A loop run from index [i] with no duplicate in the in-flight list:
    the throttles dispatched to are the list the loop started from, in
    order, and the final list is part of it. *)
Lemma processLoop_visits (fuel : nat) :
  forall fin period m i g trace L0,
  NoDup (inFlightRequests g) ->
  map fst trace ++ skipn i (inFlightRequests g) = L0 ->
  incl (inFlightRequests g) L0 ->
  (i <= length (inFlightRequests g))%nat ->
  (length (inFlightRequests g) <= fuel + i)%nat ->
  let r := processLoop fuel fin period m i g trace in
  map fst (snd r) = L0 /\ incl (inFlightRequests (fst r)) L0 /\
  NoDup (inFlightRequests (fst r)).
Proof.
  induction fuel as [|fuel IH];
    intros fin period m i g trace L0 Hnd Htr Hincl Hi Hfuel; simpl.
  - rewrite skipn_all2 in Htr by lia. rewrite app_nil_r in Htr. auto.
  - destruct (nth_error (inFlightRequests g) i) as [c|] eqn:Hc.
    2:{ apply nth_error_None in Hc. rewrite skipn_all2 in Htr by lia.
        rewrite app_nil_r in Htr. auto. }
    pose proof (nth_error_Some (inFlightRequests g) i) as Hlt.
    rewrite Hc in Hlt. assert (Hil : (i < length (inFlightRequests g))%nat)
      by (apply Hlt; discriminate).
    set (a := allowance _ _ _ _ _).
    destruct (fin trace c a) eqn:Hf.
    + rewrite handleRequestStop_inFlight.
      rewrite (indexOf_NoDup _ _ _ Hnd Hc), (splice1_at _ _ Hil).
      rewrite length_app, length_firstn, length_skipn, Nat.min_l by lia.
      replace (Nat.ltb (i + (length (inFlightRequests g) - S i)) (length (inFlightRequests g)))
        with true by (symmetry; apply Nat.ltb_lt; lia).
      apply IH.
      * rewrite handleRequestStop_inFlight, (indexOf_NoDup _ _ _ Hnd Hc), (splice1_at _ _ Hil).
        apply removeAt_NoDup, Hnd.
      * rewrite handleRequestStop_inFlight, (indexOf_NoDup _ _ _ Hnd Hc), (splice1_at _ _ Hil).
        rewrite skipn_removeAt by lia. rewrite map_app, <- app_assoc. cbn [map fst app].
        rewrite <- (skipn_nth_error _ _ _ Hc). exact Htr.
      * rewrite handleRequestStop_inFlight. intros x Hx. apply Hincl.
        eapply splice1_In; eauto.
      * rewrite handleRequestStop_inFlight, (indexOf_NoDup _ _ _ Hnd Hc), (splice1_at _ _ Hil).
        rewrite length_app, length_firstn, length_skipn. lia.
      * rewrite handleRequestStop_inFlight, (indexOf_NoDup _ _ _ Hnd Hc), (splice1_at _ _ Hil).
        rewrite length_app, length_firstn, length_skipn. lia.
    + rewrite Nat.ltb_irrefl. apply IH; auto; try lia.
      rewrite map_app, <- app_assoc. cbn [map fst app].
      rewrite <- (skipn_nth_error _ _ _ Hc). exact Htr.
Qed.

Lemma NoDup_snoc {A} (l : list A) (x : A) : NoDup l -> ~ In x l -> NoDup (l ++ [x]).
Proof.
  induction l as [|a l IH]; intros Hl Hx; simpl; [constructor; [intros []|constructor]|].
  inversion Hl as [|? ? Ha Hl']; subst. constructor.
  - rewrite in_app_iff. intros [H|[H|[]]]; [contradiction|]. subst. apply Hx. left; reflexivity.
  - apply IH; [exact Hl'|]. intros H. apply Hx. right; exact H.
Qed.

Lemma handleRequestStart_inFlight (g : Group) (c : Channel) :
  inFlightRequests (handleRequestStart g c) = inFlightRequests g ++ [c].
Proof. unfold handleRequestStart. destruct (isTicking _); reflexivity. Qed.

(** A property of the in-flight list kept by [splice] is kept by a tick. *)
Lemma processInFlightRequests_inFlight (P : list Channel -> Prop) :
  (forall l k, P l -> P (splice1 l k)) ->
  forall g now fin, P (inFlightRequests g) ->
  P (inFlightRequests (fst (processInFlightRequests g now fin))).
Proof.
  intros Hs g now fin Hg. unfold processInFlightRequests.
  destruct (negb (isDue g now)); [exact Hg|].
  destruct (processLoop _ fin _ _ O g []) as [g1 trace] eqn:E.
  assert (H1 : P (inFlightRequests g1)).
  { replace g1 with (fst (processLoop (length (inFlightRequests g)) fin
      (Z.rem (secondIndex g) (Z.of_nat (length (inFlightRequests g))))
      (delayMultiplier g now) O g [])) by (rewrite E; reflexivity).
    apply (processLoop_preserves (fun g => P (inFlightRequests g))); [|exact Hg].
    intros g0 c H0. rewrite handleRequestStop_inFlight. apply Hs, H0. }
  destruct (isTicking g1); [|exact H1].
  destruct (tickIndex g1 + 1 =? ticksPerSecond (config g1)); exact H1.
Qed.

(** With throttles signalling start at most once, the in-flight list has
    no duplicate and only holds throttles that signalled start. *)
Lemma runThrottled_NoDup (es : list GroupEvent) :
  forall g started, NoDup (inFlightRequests g) -> incl (inFlightRequests g) started ->
  let r := runThrottled g started es in
  NoDup (inFlightRequests (fst r)) /\ incl (inFlightRequests (fst r)) (snd r).
Proof.
  induction es as [|e es IH]; intros g started Hnd Hincl; simpl; [auto|].
  destruct e as [c|c|o|now fin].
  - destruct (existsb (Nat.eqb c) started) eqn:Ex; [apply IH; auto|].
    apply IH; rewrite handleRequestStart_inFlight.
    + apply NoDup_snoc; [exact Hnd|]. intros Hin. apply Hincl in Hin.
      assert (existsb (Nat.eqb c) started = true)
        by (apply existsb_exists; exists c; split; [exact Hin|apply Nat.eqb_refl]).
      congruence.
    + intros x Hx. apply in_app_iff in Hx. destruct Hx as [Hx|[<-|[]]];
        [right; apply Hincl, Hx|left; reflexivity].
  - apply IH; simpl; rewrite handleRequestStop_inFlight.
    + apply splice1_NoDup, Hnd.
    + intros x Hx. apply Hincl. eapply splice1_In; eauto.
  - apply IH; simpl; assumption.
  - apply IH; simpl; destruct (isTicking g); try assumption.
    + apply (processInFlightRequests_inFlight (fun l => NoDup l)); [|exact Hnd].
      intros l k; apply splice1_NoDup.
    + apply (processInFlightRequests_inFlight (fun l => incl l started)); [|exact Hincl].
      intros l k Hl x Hx. apply Hl. eapply splice1_In; eauto.
Qed.

(** C8: on a processed tick, every throttle still in flight when the loop
    has completed was passed to [process] exactly once, in any state the
    group reaches from its creation through the signals its throttles
    raise (start at most once per throttle, stop at any time),
    reconfigurations and ticks, whatever the [process] calls do. *)
Theorem processInFlightRequests_each_once (options : IConfig) (es : list GroupEvent)
  (now : Z) (fin : ProcessOutcome) :
  let g := fst (runThrottled (newGroup options) [] es) in
  isDue g now = true ->
  let r := processInFlightRequests g now fin in
  forall c, In c (inFlightRequests (fst r)) ->
    count_occ Nat.eq_dec (map fst (snd r)) c = 1%nat.
Proof.
  intros g Hdue r c Hc.
  destruct (runThrottled_NoDup es (newGroup options) [] (NoDup_nil _) (incl_refl _))
    as [Hnd _].
  change (fst (runThrottled (newGroup options) [] es)) with g in Hnd.
  unfold r, processInFlightRequests in Hc |- *. rewrite Hdue in Hc |- *. simpl in Hc |- *.
  destruct (processLoop_visits (length (inFlightRequests g)) fin
    (Z.rem (secondIndex g) (Z.of_nat (length (inFlightRequests g))))
    (delayMultiplier g now) O g [] (inFlightRequests g) Hnd eq_refl (incl_refl _)
    ltac:(lia) ltac:(lia)) as (Htrace & Hincl & _).
  destruct (processLoop _ fin _ _ O g []) as [g1 trace]. simpl in Htrace, Hincl.
  destruct (isTicking g1); [destruct (tickIndex g1 + 1 =? ticksPerSecond (config g1))|];
    simpl in Hc |- *; rewrite Htrace; apply NoDup_count_occ';
    solve [exact Hnd | apply Hincl, Hc].
Qed.

Lemma processInFlightRequests_each_once_witness :
  let g := fst (runThrottled (newGroup (mkIConfig (Some (Finite 10)) (Some 1))) []
                  [RequestStart 1%nat; RequestStart 2%nat]) in
  isDue g 0 = true /\
  let r := processInFlightRequests g 0 (fun _ c _ => Nat.eqb c 1%nat) in
  forall c, In c (inFlightRequests (fst r)) ->
    count_occ Nat.eq_dec (map fst (snd r)) c = 1%nat.
Proof.
  intros g. split; [vm_compute; reflexivity|].
  apply (processInFlightRequests_each_once (mkIConfig (Some (Finite 10)) (Some 1))
           [RequestStart 1%nat; RequestStart 2%nat] 0 (fun _ c _ => Nat.eqb c 1%nat)).
  vm_compute. reflexivity.
Defined.

(** C2: with 24 bytes per second over 50 ticks per second, one throttle in
    flight for the whole second and the clock firing every 20 ms (so the
    delay multiplier stays 1), the fifty ticks of the first second
    dispatch 25 bytes in total, not 24. *)
Theorem group_second_total_24_50 :
  let trace := snd (runEvents (newGroup (mkIConfig (Some (Finite 24)) (Some 50)))
                     (RequestStart 1%nat :: ticksFrom 0 20 50 neverFinishes)) in
  length trace = 50%nat /\ map fst trace = repeat 1%nat 50 /\
  sumAllowances trace = Some 25%Q.
Proof. vm_compute. repeat split; reflexivity. Qed.

(** C6: a stop signal from a throttle that is not in flight removes the
    last throttle in flight, as [splice(indexOf(x), 1)] with [indexOf]
    returning -1 removes the last element. *)
Theorem handleRequestStop_absent_removes_last :
  let g := fst (runEvents (newGroup (mkIConfig (Some (Finite 10)) None))
                  [RequestStart 1%nat; RequestStart 2%nat]) in
  inFlightRequests g = [1%nat; 2%nat] /\
  inFlightRequests (handleRequestStop g 3%nat) = [1%nat].
Proof. vm_compute. split; reflexivity. Qed.

(** With [process] never completing a throttle, the loop visits every
    position once, with the count and the tick of the group it started
    from. *)
Lemma processLoop_nofinish (fin : ProcessOutcome) (period : Z) (m : Q) (g : Group) :
  (forall tr c a, fin tr c a = false) ->
  forall fuel i trace, (length (inFlightRequests g) - i <= fuel)%nat ->
  processLoop fuel fin period m i g trace =
  (g, trace ++ map (fun j => (nth j (inFlightRequests g) 0%nat,
         allowance (config g) (Z.of_nat (length (inFlightRequests g)))
           (Z.rem (Z.of_nat j + period) (Z.of_nat (length (inFlightRequests g))))
           (tickIndex g) m))
      (seq i (length (inFlightRequests g) - i))).
Proof.
  intros Hfin fuel. induction fuel as [|fuel IH]; intros i trace Hle.
  - replace (length (inFlightRequests g) - i)%nat with O by lia.
    simpl. rewrite app_nil_r. reflexivity.
  - simpl. destruct (nth_error (inFlightRequests g) i) as [c|] eqn:Ei.
    + rewrite Hfin, Nat.ltb_irrefl.
      assert (Hi : (i < length (inFlightRequests g))%nat)
        by (apply nth_error_Some; congruence).
      rewrite IH by lia.
      replace (length (inFlightRequests g) - i)%nat
        with (S (length (inFlightRequests g) - S i)) by lia.
      assert (Hc : nth i (inFlightRequests g) 0%nat = c)
        by (eapply nth_error_nth; exact Ei).
      simpl. rewrite <- app_assoc. simpl. rewrite Hc. reflexivity.
    + apply nth_error_None in Ei.
      replace (length (inFlightRequests g) - i)%nat with O by lia.
      simpl. rewrite app_nil_r. reflexivity.
Qed.

(** C4, as it fails: three throttles in flight at the start of a tick
    (second 3, so the rotation offset is 0) sharing 5 bytes per second at
    one tick per second; the first completes in its [process] call. The
    third is then given 3 bytes, the share of position 1 of 2, where the
    description gives it 2, the share of position 2 of 3. *)
Lemma processInFlightRequests_allowance_after_stop :
  let g := fst (runEvents (newGroup (mkIConfig (Some (Finite 5)) (Some 1)))
                  [RequestStart 1%nat; RequestStart 2%nat; RequestStart 3%nat;
                   ClockFires 0 neverFinishes; ClockFires 1000 neverFinishes;
                   ClockFires 2000 neverFinishes]) in
  inFlightRequests g = [1%nat; 2%nat; 3%nat] /\ isDue g 3000 = true /\
  snd (processInFlightRequests g 3000 (fun _ c _ => Nat.eqb c 1%nat)) =
    [(1%nat, Some 1%Q); (2%nat, Some 2%Q); (3%nat, Some 3%Q)] /\
  claimedAllowance g 3000 2 = Some 2%Q.
Proof. vm_compute. repeat split; reflexivity. Qed.

(** C4 (amended): on a due tick while throttled, when no [process] call
    of the tick completes its throttle, the throttle at position [i] is
    given [partitionPart(partitionPart(bytesPerSecond, inFlightCount,
    (i + secondIndex mod inFlightCount) mod inFlightCount), ticksPerSecond,
    tickIndex) * delayMultiplier], for every position, in order. *)
Theorem processInFlightRequests_allowances (g : Group) (now : Z) (fin : ProcessOutcome)
  (B : Z) :
  bytesPerSecond (config g) = Finite B -> isDue g now = true -> 0 <= secondIndex g ->
  (forall tr c a, fin tr c a = false) ->
  snd (processInFlightRequests g now fin) =
  map (fun j => (nth j (inFlightRequests g) 0%nat, claimedAllowance g now (Z.of_nat j)))
    (seq 0 (length (inFlightRequests g))).
Proof.
  intros HB Hdue Hs Hfin. unfold processInFlightRequests. rewrite Hdue. simpl.
  rewrite (processLoop_nofinish fin _ _ g Hfin) by lia.
  assert (Htr : forall g1 : Group, forall trace : list (Channel * option Q),
    snd (if negb (isTicking g1) then (g1, trace) else
      let '(t', s') := if tickIndex g1 + 1 =? ticksPerSecond (config g1)
                       then (0, secondIndex g1 + 1) else (tickIndex g1 + 1, secondIndex g1) in
      (mkGroup (config g1) (inFlightRequests g1) (clockIntervalId g1) (liveIntervals g1)
         (nextIntervalId g1)
         (if hasTicked g1 then lastTickTime g1 + elapsedTime g now else now) t' s', trace))
    = trace).
  { intros g1 trace. destruct (isTicking g1); [|reflexivity].
    destruct (tickIndex g1 + 1 =? ticksPerSecond (config g1)); reflexivity. }
  rewrite Htr. simpl. rewrite Nat.sub_0_r.
  apply map_ext_in. intros j Hj. apply in_seq in Hj.
  f_equal. unfold allowance, claimedAllowance. rewrite HB.
  set (n := Z.of_nat (length (inFlightRequests g))).
  assert (Hn : 0 < n) by (unfold n; lia).
  rewrite (Z.rem_mod_nonneg (secondIndex g)) by lia.
  rewrite Z.rem_mod_nonneg
    by (pose proof (Z.mod_pos_bound (secondIndex g) n Hn); lia).
  reflexivity.
Qed.

Lemma processInFlightRequests_allowances_witness :
  let g := fst (runEvents (newGroup (mkIConfig (Some (Finite 5)) (Some 1)))
                  [RequestStart 1%nat; RequestStart 2%nat; RequestStart 3%nat;
                   ClockFires 0 neverFinishes]) in
  bytesPerSecond (config g) = Finite 5 /\ isDue g 1000 = true /\ 0 <= secondIndex g /\
  snd (processInFlightRequests g 1000 neverFinishes) =
  map (fun j => (nth j (inFlightRequests g) 0%nat, claimedAllowance g 1000 (Z.of_nat j)))
    (seq 0 (length (inFlightRequests g))).
Proof.
  intros g. split; [vm_compute; reflexivity|]. split; [vm_compute; reflexivity|].
  split; [vm_compute; discriminate|].
  apply (processInFlightRequests_allowances g 1000 neverFinishes 5).
  - vm_compute; reflexivity.
  - vm_compute; reflexivity.
  - vm_compute; discriminate.
  - intros; reflexivity.
Defined.

(** [process] calls leave the configuration alone. *)
Lemma processInFlightRequests_config (g : Group) (now : Z) (fin : ProcessOutcome) :
  config (fst (processInFlightRequests g now fin)) = config g.
Proof.
  unfold processInFlightRequests.
  destruct (negb (isDue g now)); [reflexivity|].
  destruct (processLoop _ fin _ _ O g []) as [g1 trace] eqn:E.
  assert (H1 : config g1 = config g).
  { replace g1 with (fst (processLoop (length (inFlightRequests g)) fin
      (Z.rem (secondIndex g) (Z.of_nat (length (inFlightRequests g))))
      (delayMultiplier g now) O g [])) by (rewrite E; reflexivity).
    apply (processLoop_preserves (fun g0 => config g0 = config g)); [|reflexivity].
    intros g0 c H0. rewrite handleRequestStop_config. exact H0. }
  destruct (isTicking g1); [|exact H1].
  destruct (tickIndex g1 + 1 =? ticksPerSecond (config g1)); exact H1.
Qed.


End GroupProofs.

(** ** Proofs about [BandwidthThrottle] *)

Module ThrottleProofs.
Import Double DoubleProofs Throttle.

Open Scope Q_scope.

Lemma truncQ_nonneg (x : Q) : 0 <= x -> truncQ x = Qfloor x.
Proof.
  intros Hx. unfold truncQ. apply Qle_bool_iff in Hx. rewrite Hx. reflexivity.
Qed.

Lemma Qfloor_nonneg (x : Q) : 0 <= x -> (0 <= Qfloor x)%Z.
Proof.
  intros Hx. change 0%Z with (Qfloor (inject_Z 0)) at 1.
  rewrite Qfloor_Z. apply Qfloor_resp_le in Hx. exact Hx.
Qed.

(** Within the buffer, [subarray] takes the integer parts of its bounds. *)
Lemma relativeIndex_in (len : Z) (x : Q) :
  0 <= x -> x <= inject_Z len -> relativeIndex len x = Qfloor x.
Proof.
  intros H0 Hl. unfold relativeIndex. rewrite truncQ_nonneg by exact H0.
  pose proof (Qfloor_nonneg x H0) as Hf.
  apply Qfloor_resp_le in Hl. rewrite Qfloor_Z in Hl.
  destruct (Qfloor x <? 0)%Z eqn:E; [apply Z.ltb_lt in E; lia|]. lia.
Qed.

Lemma claimedAmount_nonneg (t : Throttle) (m : MaxBytes) :
  ThrottleInv t -> (forall q, m = Bytes q -> 0 <= q) -> 0 <= claimedAmount t m.
Proof.
  intros (H0 & H1 & H2) Hm. unfold claimedAmount.
  destruct m as [q|]; [|lra].
  specialize (Hm q eq_refl).
  destruct (Q.min_spec q (inject_Z (pendingBytesCount t) - pendingBytesReadIndex t))
    as [[_ E]|[_ E]]; rewrite E; lra.
Qed.

Lemma jsSub_positive (e s : Q) :
  onGrid e -> onGrid s -> (jsPositive (jsSub (Fin e) s) = true <-> s < e).
Proof.
  intros He Hs. cbn [jsSub]. destruct (Qlt_le_dec s e) as [L|L].
  - assert (Hp : 1 # scale <= e - s)
      by (apply onGrid_pos; [apply onGrid_sub; assumption|lra]).
    destruct (round_pos _ Hp) as [->|(r & -> & Hr)]; [tauto|].
    cbn [jsPositive]. split; [intros; exact L|intros _].
    destruct (Qle_bool r 0) eqn:B; [|reflexivity].
    apply Qle_bool_iff in B. lra.
  - assert (Hn : e - s <= 0) by lra.
    destruct (round_nonpos _ Hn) as [->|(r & -> & Hr)].
    + cbn. split; [discriminate|lra].
    + cbn [jsPositive]. apply Qle_bool_iff in Hr. rewrite Hr.
      split; [discriminate|lra].
Qed.

(** [endReadIndex] is never [Infinity]; when finite it is a double within
    the count. *)
Lemma endReadIndex_spec (t : Throttle) (m : MaxBytes) :
  ThrottleInv t ->
  match endReadIndexOf t m with
  | Fin e => e <= inject_Z (pendingBytesCount t) /\ onGrid e
  | PosInf => False
  | NegInf => True
  end.
Proof.
  intros _. destruct m as [q|]; cbn [endReadIndexOf].
  - destruct (round (pendingBytesReadIndex t + q)) as [x| |] eqn:R; cbn [jsMin]; [| |exact I].
    + split; [apply Q.le_min_r|]. apply onGrid_min; [exact (round_grid _ _ R)|apply onGrid_Z].
    + split; [apply Qle_refl|apply onGrid_Z].
  - split; [apply Qle_refl|apply onGrid_Z].
Qed.

(** The end of [process]: the request is ended when throttled and no
    buffered byte is left unread. *)
Lemma process_finish (thr : bool) (t1 : Throttle) (pushed : Z) (ret : Num) (r : ProcessResult) :
  r = (if negb (Qle_bool (inject_Z (pendingBytesCount t1)) (pendingBytesReadIndex t1)) || negb thr
       then mkProcessResult t1 pushed ret false
       else mkProcessResult (mkThrottle (bufferLength t1) (pendingBytesCount t1)
                               (pendingBytesReadIndex t1) false true) pushed ret true) ->
  pendingBytesCount (after r) = pendingBytesCount t1 /\ bufferLength (after r) = bufferLength t1 /\
  pendingBytesReadIndex (after r) = pendingBytesReadIndex t1 /\
  bytesPushed r = pushed /\ returned r = ret /\
  (signalledStop r = true <->
     thr = true /\ inject_Z (pendingBytesCount t1) <= pendingBytesReadIndex t1) /\
  (signalledStop r = true -> isInFlight (after r) = false /\ destroyed (after r) = true) /\
  (signalledStop r = false -> isInFlight (after r) = isInFlight t1 /\ destroyed (after r) = destroyed t1).
Proof.
  intros ->. destruct (Qle_bool _ _) eqn:B; destruct thr; cbn;
    (split; [reflexivity|split; [reflexivity|split; [reflexivity|split; [reflexivity|
     split; [reflexivity|split; [|split; intros H; [try discriminate; split; reflexivity
                                                     |try discriminate; split; reflexivity]]]]]]]).
  - apply Qle_bool_iff in B. tauto.
  - split; [discriminate|intros [H _]; discriminate].
  - split; [discriminate|intros [_ H]; apply Qle_bool_iff in H; congruence].
  - split; [discriminate|intros [H _]; discriminate].
Qed.

(** What one [process] call does to a throttle within the invariant:
    either nothing is pushed and the cursor stays (then [endReadIndex] is
    not past it), or the cursor moves forward to [endReadIndex] and the
    bytes between the integer parts are pushed. *)
Lemma process_spec (thr : bool) (t : Throttle) (m : MaxBytes) :
  ThrottleInv t ->
  let r := process thr t m in
  ThrottleInv (after r) /\
  pendingBytesCount (after r) = pendingBytesCount t /\ bufferLength (after r) = bufferLength t /\
  returned r = jsSub (endReadIndexOf t m) (pendingBytesReadIndex t) /\
  ((pendingBytesReadIndex (after r) = pendingBytesReadIndex t /\ bytesPushed r = 0%Z /\
    forall e, endReadIndexOf t m = Fin e -> e <= pendingBytesReadIndex t) \/
   (exists e, endReadIndexOf t m = Fin e /\ pendingBytesReadIndex t < e /\
      pendingBytesReadIndex (after r) = e /\
      bytesPushed r = (Qfloor e - Qfloor (pendingBytesReadIndex t))%Z)) /\
  (signalledStop r = true <->
     thr = true /\ inject_Z (pendingBytesCount t) <= pendingBytesReadIndex (after r)) /\
  (signalledStop r = true -> isInFlight (after r) = false /\ destroyed (after r) = true) /\
  (signalledStop r = false -> isInFlight (after r) = isInFlight t /\ destroyed (after r) = destroyed t).
Proof.
  intros Hinv r. assert (Hr : r = process thr t m) by reflexivity. clearbody r.
  pose proof Hinv as (H0 & H1 & H2 & H3 & H4).
  assert (Hlen : inject_Z (pendingBytesCount t) <= inject_Z (bufferLength t))
    by (rewrite <- Zle_Qle; exact H3).
  pose proof (endReadIndex_spec t m Hinv) as HE.
  unfold process in Hr.
  destruct (endReadIndexOf t m) as [e| |] eqn:E; [|contradiction|];
    try rewrite E in Hr.
  - destruct HE as [He Hg].
    destruct (jsPositive (jsSub (Fin e) (pendingBytesReadIndex t))) eqn:P.
    + pose proof P as Plt. apply jsSub_positive in Plt; [|exact Hg|exact H4].
      cbv beta iota zeta in Hr. try rewrite P in Hr.
      apply process_finish in Hr.
      destruct Hr as (R1 & R2 & R3 & R4 & R5 & R6 & R7 & R8).
      cbn [setReadIndex pendingBytesCount bufferLength pendingBytesReadIndex
           isInFlight destroyed] in *.
      assert (Hsub : subarrayLength (bufferLength t) (pendingBytesReadIndex t) e
                     = (Qfloor e - Qfloor (pendingBytesReadIndex t))%Z).
      { unfold subarrayLength.
        rewrite (relativeIndex_in _ e) by lra.
        rewrite (relativeIndex_in _ (pendingBytesReadIndex t)) by lra.
        assert (Hle : pendingBytesReadIndex t <= e) by lra.
        pose proof (Qfloor_resp_le _ _ Hle). lia. }
      rewrite R1, R2, R3, R4, R5. rewrite Hsub.
      split; [unfold ThrottleInv; rewrite R1, R2, R3; repeat split; (lra || lia || exact Hg)|].
      split; [reflexivity|split; [reflexivity|split; [reflexivity|]]].
      split; [right; exists e; repeat split; lra|].
      split; [rewrite R6; try rewrite R3; tauto|split; assumption].
    + cbv beta iota zeta in Hr. try rewrite P in Hr.
      apply process_finish in Hr.
      destruct Hr as (R1 & R2 & R3 & R4 & R5 & R6 & R7 & R8).
      assert (Hle : e <= pendingBytesReadIndex t).
      { apply Qnot_lt_le. intros C. apply (jsSub_positive e _ Hg H4) in C. congruence. }
      rewrite R1, R2, R3, R4, R5.
      split; [unfold ThrottleInv; rewrite R1, R2, R3; repeat split; assumption|].
      split; [reflexivity|split; [reflexivity|split; [reflexivity|]]].
      split; [left; repeat split; intros e' He'; injection He' as <-; exact Hle|].
      split; [rewrite R6; try rewrite R3; tauto|split; assumption].
  - cbv beta iota zeta in Hr. apply process_finish in Hr.
    destruct Hr as (R1 & R2 & R3 & R4 & R5 & R6 & R7 & R8).
    rewrite R1, R2, R3, R4, R5.
    split; [unfold ThrottleInv; rewrite R1, R2, R3; repeat split; assumption|].
    split; [reflexivity|split; [reflexivity|split; [reflexivity|]]].
    split; [left; repeat split; intros e' He'; discriminate|].
    split; [rewrite R6; try rewrite R3; tauto|split; assumption].
Qed.

Lemma transform_inv (thr : bool) (t : Throttle) (n : nat) :
  ThrottleInv t -> ThrottleInv (transformed (transform thr t n)).
Proof.
  intros Hinv. pose proof Hinv as (H0 & H1 & H2 & H3 & H4). unfold transform. cbn.
  destruct (bufferLength t <? pendingBytesCount t + Z.of_nat n)%Z eqn:E;
    [unfold ThrottleInv; simpl; auto|].
  apply Z.ltb_ge in E.
  assert (Hinv2 : ThrottleInv (mkThrottle (bufferLength t) (pendingBytesCount t + Z.of_nat n)
                    (pendingBytesReadIndex t) true (destroyed t))).
  { unfold ThrottleInv; simpl. repeat split; try lia; [exact H0| |exact H4].
    eapply Qle_trans; [exact H1|]. rewrite <- Zle_Qle. lia. }
  destruct thr; [exact Hinv2|]. exact (proj1 (process_spec false _ Unbounded Hinv2)).
Qed.

Lemma runThrottle_inv (calls : list ThrottleCall) :
  forall t, ThrottleInv t -> ThrottleInv (runThrottle t calls).
Proof.
  induction calls as [|[thr n|thr m] calls IH]; intros t Hinv; simpl; [exact Hinv| |].
  - apply IH, transform_inv, Hinv.
  - apply IH. exact (proj1 (process_spec thr t m Hinv)).
Qed.

Lemma newThrottle_inv (n : nat) : ThrottleInv (newThrottle n).
Proof.
  unfold ThrottleInv; simpl. repeat split; try lia; try apply Qle_refl.
  exact (onGrid_Z 0).
Qed.

Lemma inject_Z_sub (a b : Z) : inject_Z (a - b) == inject_Z a - inject_Z b.
Proof. rewrite <- Z.add_opp_r, inject_Z_plus, inject_Z_opp. reflexivity. Qed.

Lemma claimedAmount_le (t : Throttle) (m : MaxBytes) :
  claimedAmount t m <= inject_Z (pendingBytesCount t) - pendingBytesReadIndex t.
Proof. unfold claimedAmount. destruct m as [q|]; [apply Q.le_min_r|apply Qle_refl]. Qed.

(** From a whole cursor and a whole allowance, with at most [2^53] bytes
    buffered, [endReadIndex] is either the whole number the cursor plus
    the claimed amount, or (for an allowance below [-2^53 - cursor]) not
    past the cursor. *)
Lemma endReadIndex_whole (t : Throttle) (m : MaxBytes) (z : Z) :
  ThrottleInv t -> (pendingBytesCount t <= 2 ^ 53)%Z ->
  pendingBytesReadIndex t == inject_Z z -> wholeAllowance m ->
  (exists e w, endReadIndexOf t m = Fin e /\ e == inject_Z w /\
               inject_Z w == pendingBytesReadIndex t + claimedAmount t m) \/
  (claimedAmount t m < 0 /\
   forall e, endReadIndexOf t m = Fin e -> e <= pendingBytesReadIndex t).
Proof.
  intros Hinv Hc Hz Hm. pose proof Hinv as (H0 & H1 & H2 & H3 & H4).
  set (c := pendingBytesCount t) in *. set (ri := pendingBytesReadIndex t) in *.
  assert (Hz0 : (0 <= z)%Z) by (rewrite Hz in H0; unfold Qle in H0; simpl in H0; lia).
  assert (Hzc : (z <= c)%Z) by (rewrite Hz in H1; rewrite <- Zle_Qle in H1; exact H1).
  destruct m as [q|]; cbn [endReadIndexOf claimedAmount wholeAllowance] in *; fold c ri.
  - destruct Hm as [k Hk].
    assert (Hs : ri + q == inject_Z (z + k)) by (rewrite Hz, Hk, inject_Z_plus; reflexivity).
    assert (Hzk : inject_Z (z + k) == inject_Z z + inject_Z k) by (rewrite inject_Z_plus; reflexivity).
    destruct (Z_lt_le_dec (z + k) (- 2 ^ 53)) as [Lo|Lo].
    + right. split.
      * eapply Qle_lt_trans; [apply Q.le_min_l|]. rewrite Hk.
        unfold Qlt; simpl; lia.
      * intros e E. assert (Hn : ri + q <= 0) by (rewrite Hs; unfold Qle; simpl; lia).
        destruct (round_nonpos _ Hn) as [R|(r & R & Hr)];
          rewrite R in E; cbn [jsMin] in E; [discriminate|].
        injection E as <-. eapply Qle_trans; [apply Q.le_min_l|]. lra.
    + left. destruct (Z_le_gt_dec (z + k) (2 ^ 53)) as [Hi|Hi].
      * destruct (round_int _ (z + k) Hs ltac:(lia)) as (r & R & Hr).
        rewrite R. cbn [jsMin].
        exists (Qmin r (inject_Z c)), (Z.min (z + k) c).
        split; [reflexivity|].
        destruct (Z.min_spec (z + k) c) as [[L1 E1]|[L1 E1]]; rewrite E1;
          [rewrite Zlt_Qlt in L1|rewrite Zle_Qle in L1];
          destruct (Q.min_spec r (inject_Z c)) as [[L2 E2]|[L2 E2]]; rewrite E2;
          destruct (Q.min_spec q (inject_Z c - ri)) as [[L3 E3]|[L3 E3]]; rewrite E3;
          (split; [|]); lra.
      * assert (Hl : inject_Z (2 ^ 53) <= ri + q)
          by (rewrite Hs; rewrite <- Zle_Qle; lia).
        assert (Hc' : inject_Z c <= inject_Z (2 ^ 53)) by (rewrite <- Zle_Qle; exact Hc).
        assert (Hgt : inject_Z (2 ^ 53) < inject_Z (z + k)) by (rewrite <- Zlt_Qlt; lia).
        destruct (round_large _ Hl) as [R|(r & R & Hr)]; rewrite R;
          cbn [jsMin].
        -- exists (inject_Z c), c. split; [reflexivity|split; [reflexivity|]].
           destruct (Q.min_spec q (inject_Z c - ri)) as [[L3 E3]|[L3 E3]]; rewrite E3; lra.
        -- exists (Qmin r (inject_Z c)), c. split; [reflexivity|].
           destruct (Q.min_spec r (inject_Z c)) as [[L2 E2]|[L2 E2]]; rewrite E2;
           destruct (Q.min_spec q (inject_Z c - ri)) as [[L3 E3]|[L3 E3]]; rewrite E3;
           (split; [|]); lra.
  - left. exists (inject_Z c), c. split; [reflexivity|split; [reflexivity|]]. lra.
Qed.

Lemma process_whole (thr : bool) (t : Throttle) (m : MaxBytes) (z : Z) :
  ThrottleInv t -> (bufferLength t <= 2 ^ 53)%Z ->
  pendingBytesReadIndex t == inject_Z z -> wholeAllowance m ->
  exists w, pendingBytesReadIndex (after (process thr t m)) == inject_Z w.
Proof.
  intros Hinv Hb Hz Hm. pose proof Hinv as (_ & _ & _ & H3 & _).
  destruct (process_spec thr t m Hinv) as (_ & _ & _ & _ & Hcase & _).
  destruct Hcase as [(R & _ & _)|(e & E & Lt & R & _)].
  - exists z. rewrite R. exact Hz.
  - destruct (endReadIndex_whole t m z Hinv ltac:(lia) Hz Hm)
      as [(e' & w & E' & Ew & _)|(_ & Hle)].
    + rewrite E in E'. injection E' as <-. exists w. rewrite R. exact Ew.
    + specialize (Hle e E). lra.
Qed.

Lemma transform_whole (thr : bool) (t : Throttle) (n : nat) (z : Z) :
  ThrottleInv t -> (bufferLength t <= 2 ^ 53)%Z ->
  pendingBytesReadIndex t == inject_Z z ->
  bufferLength (transformed (transform thr t n)) = bufferLength t /\
  exists w, pendingBytesReadIndex (transformed (transform thr t n)) == inject_Z w.
Proof.
  intros Hinv Hb Hz. pose proof Hinv as (H0 & H1 & H2 & H3 & H4).
  unfold transform. cbv beta zeta.
  cbn [bufferLength pendingBytesCount pendingBytesReadIndex isInFlight destroyed].
  destruct (bufferLength t <? pendingBytesCount t + Z.of_nat n)%Z eqn:E.
  { cbn. split; [reflexivity|exists z; exact Hz]. }
  apply Z.ltb_ge in E.
  set (t2 := mkThrottle (bufferLength t) (pendingBytesCount t + Z.of_nat n)
               (pendingBytesReadIndex t) true (destroyed t)).
  assert (Hinv2 : ThrottleInv t2).
  { unfold ThrottleInv, t2; simpl. repeat split; try lia; [exact H0| |exact H4].
    eapply Qle_trans; [exact H1|]. rewrite <- Zle_Qle. lia. }
  destruct thr; cbn [transformed].
  - split; [reflexivity|exists z; exact Hz].
  - destruct (process_spec false t2 Unbounded Hinv2) as (_ & _ & Hb2 & _).
    split; [exact Hb2|].
    exact (process_whole false t2 Unbounded z Hinv2 Hb Hz I).
Qed.

Lemma runThrottle_whole (calls : list ThrottleCall) :
  forall t z, ThrottleInv t -> (bufferLength t <= 2 ^ 53)%Z ->
  pendingBytesReadIndex t == inject_Z z -> Forall wholeCall calls ->
  bufferLength (runThrottle t calls) = bufferLength t /\
  exists w, pendingBytesReadIndex (runThrottle t calls) == inject_Z w.
Proof.
  induction calls as [|[thr n|thr m] calls IH]; intros t z Hinv Hb Hz Hw; simpl.
  - split; [reflexivity|exists z; exact Hz].
  - inversion Hw as [|? ? _ Hw']; subst.
    destruct (transform_whole thr t n z Hinv Hb Hz) as (Hb1 & w & Hw1).
    destruct (IH _ w (transform_inv thr t n Hinv) ltac:(lia) Hw1 Hw') as (Hb2 & Hw2).
    split; [lia|exact Hw2].
  - inversion Hw as [|? ? Hm Hw']; subst.
    destruct (process_spec thr t m Hinv) as (Hinv1 & _ & Hb1 & _).
    destruct (process_whole thr t m z Hinv Hb Hz Hm) as (w & Hw1).
    destruct (IH _ w Hinv1 ltac:(lia) Hw1 Hw') as (Hb2 & Hw2).
    split; [lia|exact Hw2].
Qed.

(** C9, as it fails. After a write of 10 bytes, [process(2.5)] (an
    allowance scaled by a fractional delay multiplier) moves the cursor by
    2.5 but pushes 2 bytes. And from the cursor 1, [process(1.16)] moves
    it by [1.1600000000000001]: [1 + 1.16] is rounded up to the next
    double, so the cursor does not advance by the amount claimed. *)
Lemma process_fractional_allowance :
  let t := runThrottle (newThrottle 10) [WriteChunk true 10] in
  let r := process true t (Bytes (5 # 2)) in
  let t1 := runThrottle (newThrottle 10) [WriteChunk true 10; Process true (Bytes 1)] in
  let q := 5224175567749775 # (2 ^ 52) in
  let r1 := process true t1 (Bytes q) in
  (claimedAmount t (Bytes (5 # 2)) == 5 # 2 /\
   pendingBytesReadIndex (after r) == 5 # 2 /\
   bytesPushed r = 2%Z) /\
  (pendingBytesReadIndex t1 == 1 /\ claimedAmount t1 (Bytes q) == q /\
   pendingBytesReadIndex (after r1) == 1 + (5224175567749776 # (2 ^ 52)) /\
   match returned r1 with Fin x => x == 5224175567749776 # (2 ^ 52) | _ => False end /\
   ~ (pendingBytesReadIndex (after r1) == pendingBytesReadIndex t1 + claimedAmount t1 (Bytes q))).
Proof. vm_compute. repeat split; try reflexivity. discriminate. Qed.

(** C9 (amended). For every throttle reached from its creation by any
    sequence of [transform] and [process] calls, and every
    [maxBytesToProcess], the read cursor lies between 0 and the count of
    pending bytes before and after a [process] call, and the call pushes
    the bytes between the integer parts of the old and the new cursor.
    When the buffer holds at most [2^53] bytes and every allowance so far
    and the current one are whole numbers, the current one [>= 0] (or the
    unbounded default), the call advances the cursor by exactly
    [min(maxBytesToProcess, pendingBytesCount - pendingBytesReadIndex)],
    returns that amount and pushes that many bytes. *)
Theorem process_advances_cursor (contentLength : nat) (calls : list ThrottleCall)
  (throttled : bool) (m : MaxBytes) :
  let t := runThrottle (newThrottle contentLength) calls in
  let r := process throttled t m in
  0 <= pendingBytesReadIndex t <= inject_Z (pendingBytesCount t) /\
  0 <= pendingBytesReadIndex (after r) <= inject_Z (pendingBytesCount (after r)) /\
  bytesPushed r = (Qfloor (pendingBytesReadIndex (after r))
                   - Qfloor (pendingBytesReadIndex t))%Z /\
  ((Z.of_nat contentLength <= 2 ^ 53)%Z -> Forall wholeCall calls -> wholeAllowance m ->
   (forall q, m = Bytes q -> 0 <= q) ->
   pendingBytesReadIndex (after r) == pendingBytesReadIndex t + claimedAmount t m /\
   (exists x, returned r = Fin x /\ x == claimedAmount t m) /\
   inject_Z (bytesPushed r) == claimedAmount t m).
Proof.
  intros t r.
  assert (Hinv : ThrottleInv t) by apply runThrottle_inv, newThrottle_inv.
  pose proof Hinv as (H0 & H1 & H2 & H3 & H4).
  destruct (process_spec throttled t m Hinv) as ((A0 & A1 & _) & Hc & _ & Hret & Hcase & _).
  fold r in A0, A1, Hc, Hret, Hcase.
  split; [split; assumption|]. split; [split; assumption|].
  split.
  { destruct Hcase as [(R & P & _)|(e & _ & _ & R & P)]; rewrite P; [rewrite R; lia|rewrite R; reflexivity]. }
  intros HL Hcalls Hwm Hnn.
  assert (Hnew : ThrottleInv (newThrottle contentLength)) by apply newThrottle_inv.
  destruct (runThrottle_whole calls (newThrottle contentLength) 0 Hnew HL (Qeq_refl _) Hcalls)
    as (Hb & z & Hz).
  fold t in Hb, Hz. cbn [newThrottle bufferLength] in Hb.
  pose proof (claimedAmount_nonneg t m Hinv Hnn) as Hcl0.
  pose proof (claimedAmount_le t m) as Hcl1.
  assert (Hct : (pendingBytesCount t <= 2 ^ 53)%Z) by lia.
  assert (Hz0 : (0 <= z)%Z) by (rewrite Hz in H0; unfold Qle in H0; simpl in H0; lia).
  destruct (endReadIndex_whole t m z Hinv Hct Hz Hwm) as [(e & w & E & Ew & Hw)|(Hneg & _)];
    [|lra].
  assert (Hwz : inject_Z (w - z) == claimedAmount t m)
    by (rewrite inject_Z_sub; rewrite <- Hz; lra).
  assert (Hwz1 : (0 <= w - z <= pendingBytesCount t)%Z).
  { split.
    - change 0%Z with (Qnum 0) at 1. rewrite Zle_Qle. rewrite Hwz. exact Hcl0.
    - rewrite Zle_Qle. rewrite Hwz. rewrite Hz in Hcl1.
      assert (inject_Z 0 <= inject_Z z) by (rewrite <- Zle_Qle; exact Hz0). lra. }
  assert (Hret' : exists x, returned r = Fin x /\ x == claimedAmount t m).
  { rewrite Hret, E. cbn [jsSub].
    assert (Hd : e - pendingBytesReadIndex t == inject_Z (w - z))
      by (rewrite Ew, Hz, inject_Z_sub; reflexivity).
    destruct (round_int _ _ Hd ltac:(lia)) as (x & Rx & Hx).
    exists x. split; [exact Rx|]. rewrite Hx. exact Hwz. }
  destruct Hcase as [(R & P & Hle)|(e' & E' & Lt & R & P)].
  - specialize (Hle e E).
    assert (Hz' : claimedAmount t m == 0) by lra.
    split; [rewrite R; lra|]. split; [exact Hret'|]. rewrite P. rewrite Hz'. reflexivity.
  - rewrite E in E'. injection E' as <-.
    split; [rewrite R; lra|]. split; [exact Hret'|].
    rewrite P. rewrite (Qfloor_comp _ _ Ew), (Qfloor_comp _ _ Hz), !Qfloor_Z. exact Hwz.
Qed.

Lemma process_advances_cursor_witness :
  let t := runThrottle (newThrottle 10) [WriteChunk true 10; Process true (Bytes 4)] in
  let r := process true t (Bytes 3) in
  ((Z.of_nat 10 <= 2 ^ 53)%Z /\ Forall wholeCall [WriteChunk true 10; Process true (Bytes 4)] /\
   wholeAllowance (Bytes 3) /\ (forall q, Bytes 3 = Bytes q -> 0 <= q)) /\
  pendingBytesReadIndex (after r) == pendingBytesReadIndex t + claimedAmount t (Bytes 3) /\
  (exists x, returned r = Fin x /\ x == claimedAmount t (Bytes 3)) /\
  inject_Z (bytesPushed r) == claimedAmount t (Bytes 3).
Proof.
  assert (H1 : (Z.of_nat 10 <= 2 ^ 53)%Z) by (simpl; lia).
  assert (H2 : Forall wholeCall [WriteChunk true 10; Process true (Bytes 4)]).
  { repeat constructor. exists 4%Z. reflexivity. }
  assert (H3 : wholeAllowance (Bytes 3)) by (exists 3%Z; reflexivity).
  assert (H4 : forall q, Bytes 3 = Bytes q -> 0 <= q).
  { intros q Hq. injection Hq as <-. unfold Qle; simpl; lia. }
  split; [repeat split; assumption|].
  exact (proj2 (proj2 (proj2
    (process_advances_cursor 10 [WriteChunk true 10; Process true (Bytes 4)] true (Bytes 3))))
    H1 H2 H3 H4).
Defined.

End ThrottleProofs.

(** ** Further properties of the integer partitioner *)

Module PartitionExtras.
Import Partition PartitionProofs.

Lemma sumParts_app (l1 l2 : list (option Z)) (a b : Z) :
  sumParts l1 = Some a -> sumParts l2 = Some b -> sumParts (l1 ++ l2) = Some (a + b).
Proof.
  revert a; induction l1 as [|o l1 IH]; intros a H1 H2; simpl in *.
  - injection H1 as <-. rewrite H2. reflexivity.
  - destruct o as [x|]; [|discriminate].
    destruct (sumParts l1) as [s|] eqn:E; [|discriminate].
    injection H1 as <-. rewrite (IH s eq_refl H2). f_equal. lia.
Qed.

Lemma sumParts_const (f : nat -> option Z) (x : Z) (s len : nat) :
  (forall i, (s <= i < s + len)%nat -> f i = Some x) ->
  sumParts (map f (seq s len)) = Some (Z.of_nat len * x).
Proof.
  revert s; induction len as [|len IH]; intros s Hf; [reflexivity|].
  replace (Z.of_nat (S len) * x) with (x + Z.of_nat len * x)
    by (rewrite Nat2Z.inj_succ; ring).
  cbn [seq map]. change (sumParts (f s :: map f (seq (S s) len))) with
    (match f s, sumParts (map f (seq (S s) len)) with
     | Some x, Some s => Some (x + s) | _, _ => None end).
  rewrite Hf by lia. rewrite IH by (intros i Hi; apply Hf; lia). reflexivity.
Qed.

(** The value [value] is [partsCount * d + r] with [d], [r] as computed
    by [divideIntegerIntoWholeParts]. *)
Lemma div_rem_eq (value n : Z) :
  0 <= value -> 0 < n -> value = n * (value / n) + Z.rem value n /\ 0 <= Z.rem value n < n.
Proof.
  intros Hv Hn. rewrite Z.rem_mod_nonneg by lia.
  split; [apply Z.div_mod; lia|apply Z.mod_pos_bound; lia].
Qed.

(** [divideIntegerIntoWholeParts] splits [value] exactly: the two counts
    add up to [partsCount], the counts times the values add up to
    [value], and the second count is the remainder, below [partsCount]. *)
Theorem divideIntegerIntoWholeParts_exact (value partsCount : Z) :
  0 <= value -> 1 <= partsCount ->
  exists countA valueA countB valueB,
    divideIntegerIntoWholeParts value partsCount = Some ((countA, valueA), (countB, valueB)) /\
    countA + countB = partsCount /\
    countA * valueA + countB * valueB = value /\
    0 <= countB < partsCount /\ valueA = value / partsCount.
Proof.
  intros Hv Hn. unfold divideIntegerIntoWholeParts.
  destruct (Z.eqb_spec partsCount 0); [lia|].
  destruct (div_rem_eq value partsCount Hv ltac:(lia)) as [Heq Hr].
  set (d := value / partsCount) in *. set (r := Z.rem value partsCount) in *.
  exists (partsCount - r), d, r, (if 0 <? r then d + 1 else 0).
  split; [reflexivity|]. split; [lia|]. split; [|split; [lia|reflexivity]].
  destruct (Z.ltb_spec 0 r); [nia|].
  replace r with 0 in * by lia. lia.
Qed.

Lemma divideIntegerIntoWholeParts_exact_witness :
  (0 <= 24 /\ 1 <= 50) /\
  exists countA valueA countB valueB,
    divideIntegerIntoWholeParts 24 50 = Some ((countA, valueA), (countB, valueB)) /\
    countA + countB = 50 /\ countA * valueA + countB * valueB = 24 /\
    0 <= countB < 50 /\ valueA = 24 / 50.
Proof. split; [lia|]. apply divideIntegerIntoWholeParts_exact; lia. Defined.

(** Every part is [floor (value / partsCount)] or one more. *)
Theorem getPartitionedIntegerPartAtIndex_floor (value partsCount index : Z) :
  0 <= value -> 1 <= partsCount ->
  exists x, getPartitionedIntegerPartAtIndex value partsCount index = Some x /\
    value / partsCount <= x <= value / partsCount + 1.
Proof.
  intros Hv Hn.
  destruct (getPartitionedIntegerPartAtIndex_values value partsCount index Hv Hn)
    as (x & Hx & Hd). exists x. split; [exact Hx|lia].
Qed.

Lemma getPartitionedIntegerPartAtIndex_floor_witness :
  (0 <= 7 /\ 1 <= 3) /\
  exists x, getPartitionedIntegerPartAtIndex 7 3 2 = Some x /\ 7 / 3 <= x <= 7 / 3 + 1.
Proof. split; [lia|]. apply getPartitionedIntegerPartAtIndex_floor; lia. Defined.

(** When [partsCount] divides [value], every index yields
    [value / partsCount] and the parts sum to [value]. *)
Theorem getPartitionedIntegerPartAtIndex_divisible (value partsCount : Z) :
  0 <= value -> 1 <= partsCount -> Z.rem value partsCount = 0 ->
  (forall index, getPartitionedIntegerPartAtIndex value partsCount index
                 = Some (value / partsCount)) /\
  sumParts (parts value partsCount) = Some value.
Proof.
  intros Hv Hn Hr.
  assert (Hall : forall index, getPartitionedIntegerPartAtIndex value partsCount index
                               = Some (value / partsCount)).
  { intros index. unfold getPartitionedIntegerPartAtIndex, divideIntegerIntoWholeParts.
    destruct (Z.eqb_spec partsCount 0); [lia|]. rewrite Hr.
    unfold evenlyDistributeSets, sortByCount. simpl.
    destruct (Z.ltb_spec 0 (partsCount - 0)); [reflexivity|lia]. }
  split; [exact Hall|].
  unfold parts. rewrite (sumParts_const _ (value / partsCount))
    by (intros i _; apply Hall).
  destruct (div_rem_eq value partsCount Hv ltac:(lia)) as [Heq _].
  rewrite Hr in Heq. rewrite Z2Nat.id by lia. f_equal. lia.
Qed.

Lemma getPartitionedIntegerPartAtIndex_divisible_witness :
  (0 <= 80 /\ 1 <= 40 /\ Z.rem 80 40 = 0) /\
  (forall index, getPartitionedIntegerPartAtIndex 80 40 index = Some (80 / 40)) /\
  sumParts (parts 80 40) = Some 80.
Proof.
  split; [split; [lia|split; [lia|reflexivity]]|].
  apply getPartitionedIntegerPartAtIndex_divisible; [lia|lia|reflexivity].
Defined.

(** [getFrequencyPerDivision] yields the single frequency
    [slotsAvailable / slotsFilledGoal] when the goal divides the slots. *)
Lemma getFrequencyPerDivision_divides (fuel : nat) (n k : Z) :
  1 <= k -> Z.rem n k = 0 -> 0 <= n -> k <= n ->
  getFrequencyPerDivision (S fuel) n k [] = Frequencies [n / k].
Proof.
  intros Hk Hr Hn Hkn. rewrite Z.rem_mod_nonneg in Hr by lia.
  pose proof (Z.div_exact n k ltac:(lia)) as [_ Hex]. specialize (Hex Hr).
  set (f := n / k) in *.
  assert (Hf : 1 <= f) by (destruct (Z.le_gt_cases 1 f); nia).
  simpl. unfold frequencyPass, js_ceil_div.
  destruct (Z.eqb_spec k 0); [lia|].
  replace (- n / k) with (- f) by (rewrite Hex, Z.mul_comm, <- Z.mul_opp_l, Z.div_mul; lia).
  rewrite Z.opp_involutive.
  destruct (Z.eqb_spec f 0); [lia|].
  replace (- n / f) with (- k) by (rewrite Hex, <- Z.mul_opp_l, Z.div_mul; lia).
  rewrite Z.opp_involutive, Z.sub_diag. reflexivity.
Qed.

(** The sum of [fcount] periods of the pattern that puts [a] at the
    multiples of [f] and [b] elsewhere. *)
Lemma sumParts_periodic (f a b : Z) (fcount : nat) :
  1 <= f ->
  sumParts (map (fun i => Some (if Z.rem (Z.of_nat i) f =? 0 then a else b))
              (seq 0 (fcount * Z.to_nat f))) = Some (Z.of_nat fcount * (a + (f - 1) * b)).
Proof.
  intros Hf. induction fcount as [|fcount IH]; [reflexivity|].
  rewrite Nat.mul_succ_l, seq_app, map_app.
  replace (Z.of_nat (S fcount) * (a + (f - 1) * b))
    with (Z.of_nat fcount * (a + (f - 1) * b) + (a + (f - 1) * b)) by lia.
  apply sumParts_app; [exact IH|].
  replace (Z.to_nat f) with (S (Z.to_nat f - 1)) at 2 by lia.
  cbn [seq map]. simpl sumParts.
  replace (Z.rem (Z.of_nat (fcount * Z.to_nat f)) f) with 0
    by (symmetry; rewrite Nat2Z.inj_mul, Z2Nat.id by lia; apply Z.rem_mul; lia).
  rewrite Z.eqb_refl.
  rewrite (sumParts_const _ b).
  - replace (Z.of_nat (Z.to_nat f - 1)) with (f - 1) by lia. reflexivity.
  - intros i Hi.
    replace (Z.rem (Z.of_nat i) f =? 0) with false; [reflexivity|].
    symmetry. apply Z.eqb_neq.
    rewrite Z.rem_mod_nonneg by lia.
    replace (Z.of_nat i) with ((Z.of_nat i - Z.of_nat fcount * f) + Z.of_nat fcount * f)
      by lia.
    rewrite Z.mod_add by lia. rewrite Z.mod_small by lia. lia.
Qed.

(** When the count of the less common part value divides [partsCount]
    (one frequency), the parts sum to [value]. *)
Theorem getPartitionedIntegerPartAtIndex_sum_divides (value partsCount : Z) :
  0 <= value -> 1 <= partsCount ->
  let r := Z.rem value partsCount in
  0 < Z.min r (partsCount - r) -> Z.rem partsCount (Z.min r (partsCount - r)) = 0 ->
  sumParts (parts value partsCount) = Some value.
Proof.
  intros Hv Hn r Hk Hdiv.
  destruct (div_rem_eq value partsCount Hv ltac:(lia)) as [Heq Hr].
  fold r in Heq, Hr. set (d := value / partsCount) in *.
  set (k := Z.min r (partsCount - r)) in *.
  set (f := partsCount / k).
  assert (Hnk : partsCount = k * f).
  { apply Z.div_exact; [lia|]. rewrite <- Z.rem_mod_nonneg by lia. exact Hdiv. }
  assert (Hf : 1 <= f) by nia.
  set (lv := if r <? partsCount - r then d + 1 else d).
  set (mv := if r <? partsCount - r then d else d + 1).
  assert (Hpart : forall i : nat, getPartitionedIntegerPartAtIndex value partsCount (Z.of_nat i)
                  = Some (if Z.rem (Z.of_nat i) f =? 0 then lv else mv)).
  { intros i. unfold getPartitionedIntegerPartAtIndex, divideIntegerIntoWholeParts.
    destruct (Z.eqb_spec partsCount 0); [lia|]. fold d r.
    unfold evenlyDistributeSets, sortByCount, lv, mv. simpl fst. simpl snd.
    replace (partsCount - r + r) with partsCount by lia.
    destruct (Z.ltb_spec r (partsCount - r)) as [Hlt|Hge]; simpl fst; simpl snd.
    - assert (Ek : k = r) by (unfold k; lia).
      destruct (Z.eqb_spec r 0); [lia|].
      rewrite (Z.abs_eq r) by lia.
      replace (Z.to_nat r) with (S (Z.to_nat r - 1)) by lia.
      rewrite <- Ek, (getFrequencyPerDivision_divides _ partsCount k) by (try exact Hdiv; lia).
      fold f. simpl. destruct (Z.eqb_spec f 0); [lia|]. rewrite Z.sub_0_r.
      try rewrite (proj2 (Z.ltb_lt 0 k) ltac:(lia));
        try rewrite (proj2 (Z.ltb_lt 0 r) ltac:(lia)).
      destruct (Z.rem (Z.of_nat i) f =? 0); reflexivity.
    - assert (Ek : k = partsCount - r) by (unfold k; lia).
      destruct (Z.eqb_spec (partsCount - r) 0); [lia|].
      rewrite (Z.abs_eq (partsCount - r)) by lia.
      replace (Z.to_nat (partsCount - r)) with (S (Z.to_nat (partsCount - r) - 1)) by lia.
      rewrite <- Ek, (getFrequencyPerDivision_divides _ partsCount k) by (try exact Hdiv; lia).
      fold f. simpl. destruct (Z.eqb_spec f 0); [lia|]. rewrite Z.sub_0_r.
      rewrite (proj2 (Z.ltb_lt 0 r) ltac:(lia)).
      destruct (Z.rem (Z.of_nat i) f =? 0); reflexivity. }
  unfold parts. rewrite (map_ext _ _ Hpart).
  replace (Z.to_nat partsCount) with (Z.to_nat k * Z.to_nat f)%nat
    by (rewrite Hnk, Z2Nat.inj_mul by lia; reflexivity).
  rewrite sumParts_periodic by exact Hf. f_equal.
  rewrite Z2Nat.id by lia. unfold lv, mv.
  destruct (Z.ltb_spec r (partsCount - r)).
  - assert (k = r) by (unfold k; lia). nia.
  - assert (k = partsCount - r) by (unfold k; lia). nia.
Qed.

Lemma getPartitionedIntegerPartAtIndex_sum_divides_witness :
  (0 <= 10 /\ 1 <= 40 /\ 0 < Z.min (Z.rem 10 40) (40 - Z.rem 10 40) /\
   Z.rem 40 (Z.min (Z.rem 10 40) (40 - Z.rem 10 40)) = 0) /\
  sumParts (parts 10 40) = Some 10.
Proof.
  split; [vm_compute; repeat split; congruence|].
  apply (getPartitionedIntegerPartAtIndex_sum_divides 10 40); [lia|lia|vm_compute; reflexivity|vm_compute; reflexivity].
Defined.

(** [getPartitionedIntegerPartAtIndex] returns a number for every whole
    [value], [partsCount] and [index]: 0 when [partsCount = 0], and
    otherwise the value of one of the two sets of
    [divideIntegerIntoWholeParts], [Math.floor(value / partsCount)] or,
    for the [value % partsCount] remaining parts, one more (0 when the
    remainder is not positive). *)
Theorem getPartitionedIntegerPartAtIndex_total (value partsCount index : Z) :
  exists x, getPartitionedIntegerPartAtIndex value partsCount index = Some x /\
    (partsCount = 0 -> x = 0) /\
    (partsCount <> 0 ->
       x = value / partsCount \/
       x = (if 0 <? Z.rem value partsCount then value / partsCount + 1 else 0)).
Proof.
  unfold getPartitionedIntegerPartAtIndex, divideIntegerIntoWholeParts.
  destruct (Z.eqb_spec partsCount 0) as [H0|H0].
  - exists 0. split; [reflexivity|]. split; [reflexivity|]. contradiction.
  - match goal with |- context [evenlyDistributeSets ?a ?b index] =>
      destruct (evenlyDistributeSets_some a b index) as (x & Ex & Hx) end.
    exists x. split; [exact Ex|]. split; [contradiction|]. intros _. exact Hx.
Qed.

End PartitionExtras.

(** ** Further properties of the group *)

Module GroupExtras.
Import Partition PartitionProofs Group GroupProofs.

Lemma indexOf_app_notin (l : list Channel) (c : Channel) :
  ~ In c l -> indexOf (l ++ [c]) c = Z.of_nat (length l).
Proof.
  induction l as [|y l IH]; intros Hc; simpl.
  - rewrite Nat.eqb_refl. reflexivity.
  - destruct (Nat.eqb_spec y c) as [->|Hy]; [exfalso; apply Hc; left; reflexivity|].
    rewrite IH by (intros H; apply Hc; right; exact H).
    destruct (Z.ltb_spec (Z.of_nat (length l)) 0); lia.
Qed.

Lemma splice1_snoc {A} (l : list A) (c : A) :
  splice1 (l ++ [c]) (Z.of_nat (length l)) = l.
Proof.
  rewrite splice1_at by (rewrite length_app; simpl; lia).
  rewrite firstn_app, Nat.sub_diag, firstn_all, app_nil_r.
  rewrite skipn_all2 by (rewrite length_app; simpl; lia). apply app_nil_r.
Qed.

Lemma handleRequestStop_lastTickTime (g : Group) (c : Channel) :
  lastTickTime (handleRequestStop g c) = lastTickTime g.
Proof. unfold handleRequestStop. destruct (Nat.eqb _ 0); reflexivity. Qed.

(** A throttle that signals start and then stop, with no tick between,
    leaves the group as it found it, apart from the interval ids used. *)
Theorem handleRequestStart_stop_restores (g : Group) (c : Channel) :
  ClockInv g -> ~ In c (inFlightRequests g) ->
  let g' := handleRequestStop (handleRequestStart g c) c in
  config g' = config g /\ inFlightRequests g' = inFlightRequests g /\
  clockIntervalId g' = clockIntervalId g /\ liveIntervals g' = liveIntervals g /\
  lastTickTime g' = lastTickTime g /\ tickIndex g' = tickIndex g /\
  secondIndex g' = secondIndex g.
Proof.
  intros (Htick & Hlive & Hcnt) Hc g'.
  assert (Hin : inFlightRequests g' = inFlightRequests g).
  { unfold g'. rewrite handleRequestStop_inFlight, handleRequestStart_inFlight.
    rewrite indexOf_app_notin by exact Hc. apply splice1_snoc. }
  unfold g' in *. unfold handleRequestStop in *. rewrite handleRequestStart_inFlight in *.
  rewrite indexOf_app_notin in * by exact Hc. rewrite splice1_snoc in *.
  unfold handleRequestStart, setInFlight, isTicking in *. simpl in *.
  destruct (clockIntervalId g) as [id|] eqn:Ec; simpl.
  - assert (Hne : inFlightRequests g <> []) by (apply Htick; reflexivity).
    destruct (Nat.eqb_spec (length (inFlightRequests g)) 0) as [H0|H0];
      [destruct (inFlightRequests g); [contradiction|discriminate]|].
    simpl. repeat split; reflexivity.
  - destruct (inFlightRequests g) as [|x l] eqn:El.
    2:{ exfalso. assert (Ht : false = true) by (apply Htick; discriminate). discriminate. }
    simpl. rewrite Hlive. destruct (Hcnt eq_refl) as [-> ->].
    unfold stopClock, clearInterval. simpl. rewrite Nat.eqb_refl.
    repeat split; reflexivity.
Qed.

Lemma handleRequestStart_stop_restores_witness :
  let g := newGroup (mkIConfig (Some (Finite 100)) None) in
  (ClockInv g /\ ~ In 1%nat (inFlightRequests g)) /\
  let g' := handleRequestStop (handleRequestStart g 1%nat) 1%nat in
  config g' = config g /\ inFlightRequests g' = inFlightRequests g /\
  clockIntervalId g' = clockIntervalId g /\ liveIntervals g' = liveIntervals g /\
  lastTickTime g' = lastTickTime g /\ tickIndex g' = tickIndex g /\
  secondIndex g' = secondIndex g.
Proof.
  intros g. assert (H1 : ClockInv g) by apply ClockInv_newGroup.
  assert (H2 : ~ In 1%nat (inFlightRequests g)) by (simpl; tauto).
  split; [split; assumption|].
  exact (handleRequestStart_stop_restores g 1%nat H1 H2).
Defined.

(** A stop signal from a throttle in flight (the list holding no
    duplicate) removes exactly that throttle; the clock is stopped and the
    counters reset when the list becomes empty, and left alone otherwise. *)
Theorem handleRequestStop_present (g : Group) (c : Channel) (i : nat) :
  NoDup (inFlightRequests g) -> nth_error (inFlightRequests g) i = Some c ->
  let g' := handleRequestStop g c in
  inFlightRequests g' = firstn i (inFlightRequests g) ++ skipn (S i) (inFlightRequests g) /\
  (inFlightRequests g' = [] ->
     clockIntervalId g' = None /\ tickIndex g' = 0 /\ secondIndex g' = 0) /\
  (inFlightRequests g' <> [] ->
     clockIntervalId g' = clockIntervalId g /\ tickIndex g' = tickIndex g /\
     secondIndex g' = secondIndex g).
Proof.
  intros Hnd Hc g'.
  assert (Hi : (i < length (inFlightRequests g))%nat)
    by (apply nth_error_Some; congruence).
  assert (Hin : inFlightRequests g' =
                firstn i (inFlightRequests g) ++ skipn (S i) (inFlightRequests g)).
  { unfold g'. rewrite handleRequestStop_inFlight, (indexOf_NoDup _ _ _ Hnd Hc).
    apply splice1_at, Hi. }
  split; [exact Hin|]. rewrite Hin.
  unfold g', handleRequestStop. rewrite (indexOf_NoDup _ _ _ Hnd Hc), (splice1_at _ _ Hi).
  set (R := firstn i (inFlightRequests g) ++ skipn (S i) (inFlightRequests g)).
  unfold setInFlight. cbn [inFlightRequests].
  destruct (Nat.eqb_spec (length R) 0) as [H0|H0].
  - apply length_zero_iff_nil in H0. rewrite H0. simpl.
    split; [intros _; repeat split; reflexivity|intros []; reflexivity].
  - simpl. split; [|intros _; repeat split; reflexivity].
    intros E. rewrite E in H0. contradiction.
Qed.

Lemma handleRequestStop_present_witness :
  let g := fst (runEvents (newGroup (mkIConfig (Some (Finite 10)) None))
                  [RequestStart 1%nat; RequestStart 2%nat]) in
  (NoDup (inFlightRequests g) /\ nth_error (inFlightRequests g) 1 = Some 2%nat) /\
  let g' := handleRequestStop g 2%nat in
  inFlightRequests g' = firstn 1 (inFlightRequests g) ++ skipn 2 (inFlightRequests g) /\
  (inFlightRequests g' = [] ->
     clockIntervalId g' = None /\ tickIndex g' = 0 /\ secondIndex g' = 0) /\
  (inFlightRequests g' <> [] ->
     clockIntervalId g' = clockIntervalId g /\ tickIndex g' = tickIndex g /\
     secondIndex g' = secondIndex g).
Proof.
  intros g.
  assert (H1 : NoDup (inFlightRequests g)).
  { vm_compute. constructor; [simpl; intros [H|[]]; discriminate|].
    constructor; [intros []|constructor]. }
  assert (H2 : nth_error (inFlightRequests g) 1 = Some 2%nat) by (vm_compute; reflexivity).
  split; [split; assumption|].
  exact (handleRequestStop_present g 2%nat 1 H1 H2).
Defined.

(** After a processed tick of a throttled group that leaves the clock
    running, [lastTickTime] is the time of the tick, and a later clock
    firing at time [t] is processed exactly when [t - now] has reached
    [tickDurationMs]. *)
Theorem processInFlightRequests_next_due (g : Group) (now t : Z) (fin : ProcessOutcome) :
  isThrottled (config g) = true -> 1 <= ticksPerSecond (config g) -> 0 <= now ->
  isDue g now = true ->
  let g' := fst (processInFlightRequests g now fin) in
  isTicking g' = true ->
  lastTickTime g' = now /\
  (isDue g' t = true <->
     (inject_Z 1000 / inject_Z (ticksPerSecond (config g)) <= inject_Z (t - now))%Q).
Proof.
  intros Hthr HT Hnow Hdue g' Htick.
  assert (Hcfg : config g' = config g) by apply processInFlightRequests_config.
  assert (Hlast : lastTickTime g' = now).
  { unfold g' in *. unfold processInFlightRequests in *. rewrite Hdue in *. simpl in *.
    destruct (processLoop _ fin _ _ O g []) as [g1 trace] eqn:E.
    assert (Hl1 : lastTickTime g1 = lastTickTime g).
    { replace g1 with (fst (processLoop (length (inFlightRequests g)) fin
        (Z.rem (secondIndex g) (Z.of_nat (length (inFlightRequests g))))
        (delayMultiplier g now) O g [])) by (rewrite E; reflexivity).
      apply (processLoop_preserves (fun g0 => lastTickTime g0 = lastTickTime g));
        [|reflexivity].
      intros g0 c H0. rewrite handleRequestStop_lastTickTime. exact H0. }
    destruct (isTicking g1) eqn:Et; simpl in Htick |- *; [|congruence].
    destruct (tickIndex g1 + 1 =? ticksPerSecond (config g1)); simpl;
      unfold elapsedTime, hasTicked; rewrite Hl1;
      destruct (-1 <? lastTickTime g); lia. }
  split; [exact Hlast|].
  unfold isDue, elapsedBelowTick, elapsedTime, hasTicked, tickDurationMs.
  rewrite Hcfg, Hthr, Hlast.
  replace (-1 <? now) with true by (symmetry; apply Z.ltb_lt; lia).
  destruct (Z.eqb_spec (ticksPerSecond (config g)) 0); [lia|]. simpl.
  rewrite negb_involutive. apply Qle_bool_iff.
Qed.

Lemma processInFlightRequests_next_due_witness :
  let g := fst (runEvents (newGroup (mkIConfig (Some (Finite 100)) (Some 40)))
                  [RequestStart 1%nat]) in
  (isThrottled (config g) = true /\ 1 <= ticksPerSecond (config g) /\ 0 <= 0 /\
   isDue g 0 = true /\ isTicking (fst (processInFlightRequests g 0 neverFinishes)) = true) /\
  let g' := fst (processInFlightRequests g 0 neverFinishes) in
  lastTickTime g' = 0 /\
  (isDue g' 30 = true <->
     (inject_Z 1000 / inject_Z (ticksPerSecond (config g)) <= inject_Z (30 - 0))%Q).
Proof.
  intros g.
  assert (H1 : isThrottled (config g) = true) by (vm_compute; reflexivity).
  assert (H2 : 1 <= ticksPerSecond (config g)) by (vm_compute; discriminate).
  assert (H3 : isDue g 0 = true) by (vm_compute; reflexivity).
  assert (H4 : isTicking (fst (processInFlightRequests g 0 neverFinishes)) = true)
    by (vm_compute; reflexivity).
  split; [repeat split; assumption || lia|].
  exact (processInFlightRequests_next_due g 0 30 neverFinishes H1 H2 ltac:(lia) H3 H4).
Defined.

Lemma runEvents_cons (g : Group) (e : GroupEvent) (es : list GroupEvent) :
  fst (runEvents g (e :: es)) = fst (runEvents (fst (groupStep g e)) es).
Proof.
  simpl. destruct (groupStep g e) as [g1 t1]. simpl.
  destruct (runEvents g1 es); reflexivity.
Qed.

(** The tick counters of a group whose [ticksPerSecond] is [T]. *)
Lemma counters_start (g : Group) (c : Channel) :
  config (handleRequestStart g c) = config g /\
  tickIndex (handleRequestStart g c) = tickIndex g /\
  secondIndex (handleRequestStart g c) = secondIndex g.
Proof. unfold handleRequestStart. destruct (isTicking _); simpl; auto. Qed.

Lemma counters_stop (T : Z) (g : Group) (c : Channel) :
  0 <= tickIndex g < T /\ 0 <= secondIndex g -> 0 < T ->
  config (handleRequestStop g c) = config g /\
  0 <= tickIndex (handleRequestStop g c) < T /\ 0 <= secondIndex (handleRequestStop g c).
Proof.
  intros H HT. unfold handleRequestStop. destruct (Nat.eqb _ 0); simpl; [|auto].
  repeat split; lia.
Qed.

Lemma counters_tick (g : Group) (now : Z) (fin : ProcessOutcome) :
  0 <= tickIndex g < ticksPerSecond (config g) -> 0 <= secondIndex g ->
  let g' := fst (processInFlightRequests g now fin) in
  config g' = config g /\ 0 <= tickIndex g' < ticksPerSecond (config g) /\
  0 <= secondIndex g'.
Proof.
  intros Ht Hs g'. split; [apply processInFlightRequests_config|].
  unfold g', processInFlightRequests.
  destruct (negb (isDue g now)); [simpl; auto|].
  destruct (processLoop _ fin _ _ O g []) as [g1 trace] eqn:E.
  assert (H1 : config g1 = config g /\
               0 <= tickIndex g1 < ticksPerSecond (config g) /\ 0 <= secondIndex g1).
  { replace g1 with (fst (processLoop (length (inFlightRequests g)) fin
      (Z.rem (secondIndex g) (Z.of_nat (length (inFlightRequests g))))
      (delayMultiplier g now) O g [])) by (rewrite E; reflexivity).
    apply (processLoop_preserves (fun g0 => config g0 = config g /\
             0 <= tickIndex g0 < ticksPerSecond (config g) /\ 0 <= secondIndex g0)).
    - intros g0 c (Hc & H0). rewrite handleRequestStop_config.
      destruct (counters_stop (ticksPerSecond (config g)) g0 c H0 ltac:(lia)) as (_ & H2).
      auto.
    - auto. }
  destruct H1 as (Hc & Ht1 & Hs1).
  destruct (isTicking g1); simpl; [|auto].
  rewrite Hc. destruct (Z.eqb_spec (tickIndex g1 + 1) (ticksPerSecond (config g))); simpl;
    lia.
Qed.

(** Without reconfiguration, and with [ticksPerSecond >= 1], the
    configuration stays as created and the counters stay in range:
    [0 <= tickIndex < ticksPerSecond] and [secondIndex >= 0], in every
    state reached through start and stop signals and clock firings. *)
Theorem group_tick_counters (o : IConfig) (es : list GroupEvent) :
  Forall (fun e => match e with Configure _ => False | _ => True end) es ->
  1 <= ticksPerSecond (config (newGroup o)) ->
  let g := fst (runEvents (newGroup o) es) in
  config g = config (newGroup o) /\ 0 <= tickIndex g < ticksPerSecond (config g) /\
  0 <= secondIndex g.
Proof.
  intros Hes HT g. unfold g.
  set (C := config (newGroup o)) in *.
  assert (Gen : forall g0, config g0 = C -> 0 <= tickIndex g0 < ticksPerSecond C ->
            0 <= secondIndex g0 ->
            let g1 := fst (runEvents g0 es) in
            config g1 = C /\ 0 <= tickIndex g1 < ticksPerSecond (config g1) /\
            0 <= secondIndex g1).
  { induction Hes as [|e es He Hes IH]; intros g0 Hc Ht Hs.
    - simpl. rewrite Hc. auto.
    - cbv zeta. rewrite runEvents_cons.
      enough (Hs1 : config (fst (groupStep g0 e)) = C /\
                    0 <= tickIndex (fst (groupStep g0 e)) < ticksPerSecond C /\
                    0 <= secondIndex (fst (groupStep g0 e)))
        by (destruct Hs1 as (? & ? & ?); apply IH; assumption).
      destruct e as [c|c|o'|now fin]; unfold groupStep.
      + cbn [fst]. destruct (counters_start g0 c) as (E1 & E2 & E3). rewrite E1, E2, E3. auto.
      + destruct (counters_stop (ticksPerSecond C) g0 c
                    ltac:(split; assumption) ltac:(lia)) as (E1 & E2). cbn [fst].
        rewrite E1. auto.
      + contradiction.
      + destruct (isTicking g0); cbn [fst]; [|auto].
        rewrite <- Hc in Ht.
        destruct (counters_tick g0 now fin Ht Hs) as (E1 & E2 & E3).
        rewrite E1. rewrite Hc in E2. auto. }
  apply Gen; [reflexivity| |].
  - change (tickIndex (newGroup o)) with 0. lia.
  - change (secondIndex (newGroup o)) with 0. lia.
Qed.

Lemma group_tick_counters_witness :
  let o := mkIConfig (Some (Finite 30)) (Some 2) in
  let es := [RequestStart 1%nat; ClockFires 0 neverFinishes; ClockFires 500 neverFinishes;
             ClockFires 1000 neverFinishes; RequestStop 1%nat] in
  (Forall (fun e => match e with Configure _ => False | _ => True end) es /\
   1 <= ticksPerSecond (config (newGroup o))) /\
  let g := fst (runEvents (newGroup o) es) in
  config g = config (newGroup o) /\ 0 <= tickIndex g < ticksPerSecond (config g) /\
  0 <= secondIndex g.
Proof.
  intros o es.
  assert (H1 : Forall (fun e => match e with Configure _ => False | _ => True end) es)
    by (repeat constructor).
  assert (H2 : 1 <= ticksPerSecond (config (newGroup o))) by (simpl; lia).
  split; [split; assumption|].
  exact (group_tick_counters o es H1 H2).
Defined.

(** On a processed tick, in any state reached from the group's creation
    through the signals its throttles raise, reconfigurations and ticks,
    [process] is called on the throttles in flight at the start of the
    tick, each once and in their order, whatever the calls do; the tick
    only removes throttles from the in-flight list. *)
Theorem processInFlightRequests_dispatch_order (options : IConfig) (es : list GroupEvent)
  (now : Z) (fin : ProcessOutcome) :
  let g := fst (runThrottled (newGroup options) [] es) in
  isDue g now = true ->
  let r := processInFlightRequests g now fin in
  map fst (snd r) = inFlightRequests g /\
  incl (inFlightRequests (fst r)) (inFlightRequests g).
Proof.
  intros g Hdue r.
  destruct (runThrottled_NoDup es (newGroup options) [] (NoDup_nil _) (incl_refl _))
    as [Hnd _].
  change (fst (runThrottled (newGroup options) [] es)) with g in Hnd.
  unfold r, processInFlightRequests. rewrite Hdue. simpl.
  destruct (processLoop_visits (length (inFlightRequests g)) fin
    (Z.rem (secondIndex g) (Z.of_nat (length (inFlightRequests g))))
    (delayMultiplier g now) O g [] (inFlightRequests g) Hnd eq_refl (incl_refl _)
    ltac:(lia) ltac:(lia)) as (Htrace & Hincl & _).
  destruct (processLoop _ fin _ _ O g []) as [g1 trace]. simpl in Htrace, Hincl.
  destruct (isTicking g1); [destruct (tickIndex g1 + 1 =? ticksPerSecond (config g1))|];
    simpl; split; assumption.
Qed.

Lemma processInFlightRequests_dispatch_order_witness :
  let g := fst (runThrottled (newGroup (mkIConfig (Some (Finite 10)) (Some 1))) []
                  [RequestStart 1%nat; RequestStart 2%nat; RequestStart 3%nat]) in
  isDue g 0 = true /\
  let r := processInFlightRequests g 0 (fun _ c _ => Nat.eqb c 2%nat) in
  map fst (snd r) = inFlightRequests g /\
  incl (inFlightRequests (fst r)) (inFlightRequests g).
Proof.
  intros g. split; [vm_compute; reflexivity|].
  apply (processInFlightRequests_dispatch_order (mkIConfig (Some (Finite 10)) (Some 1))
           [RequestStart 1%nat; RequestStart 2%nat; RequestStart 3%nat] 0
           (fun _ c _ => Nat.eqb c 2%nat)).
  vm_compute. reflexivity.
Defined.

End GroupExtras.


(* ------------------------------------------------------------------ *)
(** ** The group's registry of throttles *)

Module RegistryExtras.
Import Group GroupProofs GroupExtras Registry.

Lemma indexOf_notin (l : list Channel) (c : Channel) : ~ In c l -> indexOf l c = -1.
Proof.
  induction l as [|y l IH]; intros Hc; simpl; [reflexivity|].
  destruct (Nat.eqb_spec y c) as [->|Hy]; [exfalso; apply Hc; left; reflexivity|].
  rewrite IH by (intros H; apply Hc; right; exact H). reflexivity.
Qed.

Lemma splice1_minus1_snoc {A} (l : list A) (y : A) : splice1 (l ++ [y]) (-1) = l.
Proof.
  unfold splice1. rewrite length_app. simpl length. cbv zeta.
  replace (Z.to_nat (if -1 <? 0 then Z.max (Z.of_nat (length l + 1) + -1) 0
                     else Z.min (-1) (Z.of_nat (length l + 1))))
    with (length l) by (simpl; lia).
  rewrite firstn_app, Nat.sub_diag, firstn_all, app_nil_r.
  rewrite skipn_all2 by (rewrite length_app; simpl; lia). apply app_nil_r.
Qed.

Lemma pop_snoc (l : list Channel) (x : Channel) : pop (l ++ [x]) = Some (x, l).
Proof. unfold pop. rewrite rev_app_distr. simpl. rewrite rev_involutive. reflexivity. Qed.

Lemma removeAt_notin {A} (l : list A) (i : nat) (c : A) :
  NoDup l -> nth_error l i = Some c -> ~ In c (firstn i l ++ skipn (S i) l).
Proof.
  revert i; induction l as [|a l IH]; intros i Hl Hi; [destruct i; discriminate|].
  inversion Hl as [|? ? Ha Hl']; subst.
  destruct i as [|i]; simpl in Hi |- *.
  - injection Hi as ->. exact Ha.
  - intros [->|H].
    + apply Ha. eapply nth_error_In. exact Hi.
    + exact (IH i Hl' Hi H).
Qed.

Lemma removeAt_keeps {A} (l : list A) (i : nat) (c x : A) :
  nth_error l i = Some c -> x <> c -> In x l -> In x (firstn i l ++ skipn (S i) l).
Proof.
  revert i; induction l as [|a l IH]; intros i Hi Hx Hin; [destruct Hin|].
  destruct i as [|i]; simpl in Hi |- *.
  - injection Hi as ->. destruct Hin as [->|H]; [contradiction|exact H].
  - destruct Hin as [->|H]; [left; reflexivity|right; exact (IH i Hi Hx H)].
Qed.

Lemma destroyLoop_everyOther (n : nat) :
  forall k d fuel, (length k <= n)%nat -> NoDup k -> (length k <= fuel)%nat ->
  destroyLoop fuel (mkRegistry (rev k) d) = mkRegistry [] (d ++ everyOther k).
Proof.
  induction n as [|n IH]; intros k d fuel Hn Hk Hf.
  - destruct k; [|simpl in Hn; lia].
    destruct fuel; simpl; rewrite app_nil_r; reflexivity.
  - destruct k as [|x [|y k]].
    + destruct fuel; simpl; rewrite app_nil_r; reflexivity.
    + destruct fuel as [|fuel]; [simpl in Hf; lia|].
      simpl. unfold destroyThrottle, handleRequestDestroy. simpl.
      rewrite splice1_nil. destruct fuel; reflexivity.
    + destruct fuel as [|fuel]; [simpl in Hf; lia|].
      inversion Hk as [|? ? Hx Hk']; subst.
      inversion Hk' as [|? ? Hy Hk'']; subst.
      cbn [destroyLoop bandwidthThrottles destroyedThrottles].
      change (rev (x :: y :: k)) with ((rev k ++ [y]) ++ [x]). rewrite pop_snoc.
      unfold destroyThrottle, handleRequestDestroy.
      cbn [bandwidthThrottles destroyedThrottles].
      rewrite indexOf_notin.
      2:{ intros H. apply in_app_or in H as [H|[H|[]]].
          - apply Hx. right. apply in_rev. exact H.
          - apply Hx. left. exact H. }
      rewrite splice1_minus1_snoc.
      simpl length in Hn, Hf.
      rewrite (IH k (d ++ [x]) fuel ltac:(lia) Hk'' ltac:(lia)).
      rewrite <- app_assoc. reflexivity.
Qed.

(** Creating a throttle and releasing it through [handleRequestDestroy]
    gives back the registry as it was, when the throttle was not already
    registered. *)
Theorem createBandwidthThrottle_handleRequestDestroy (r : Registry) (c : Channel) :
  ~ In c (bandwidthThrottles r) ->
  handleRequestDestroy (createBandwidthThrottle r c) c = r.
Proof.
  intros Hc. destruct r as [l d]. unfold handleRequestDestroy, createBandwidthThrottle.
  cbn [bandwidthThrottles destroyedThrottles] in *.
  rewrite indexOf_app_notin by exact Hc. rewrite splice1_snoc. reflexivity.
Qed.

Lemma createBandwidthThrottle_handleRequestDestroy_witness :
  ~ In 4%nat [1; 2; 3]%nat /\
  handleRequestDestroy (createBandwidthThrottle (mkRegistry [1; 2; 3]%nat [5%nat]) 4%nat) 4%nat
  = mkRegistry [1; 2; 3]%nat [5%nat].
Proof.
  assert (H : ~ In 4%nat [1; 2; 3]%nat) by (simpl; lia).
  split; [exact H|].
  exact (createBandwidthThrottle_handleRequestDestroy (mkRegistry [1; 2; 3]%nat [5%nat])
           4%nat H).
Defined.

(** Destroying a registered throttle, in a registry without duplicates,
    removes exactly that throttle from [bandwidthThrottles], keeps every
    other throttle and the absence of duplicates, and records the throttle
    as destroyed. *)
Theorem destroyThrottle_registered (r : Registry) (c : Channel) :
  NoDup (bandwidthThrottles r) -> In c (bandwidthThrottles r) ->
  let r' := destroyThrottle r c in
  NoDup (bandwidthThrottles r') /\ ~ In c (bandwidthThrottles r') /\
  (forall x, x <> c -> (In x (bandwidthThrottles r') <-> In x (bandwidthThrottles r))) /\
  destroyedThrottles r' = destroyedThrottles r ++ [c].
Proof.
  intros Hnd Hin r'. unfold r', destroyThrottle, handleRequestDestroy.
  cbn [bandwidthThrottles destroyedThrottles].
  destruct (In_nth_error _ _ Hin) as [i Hi].
  rewrite (indexOf_NoDup _ i c Hnd Hi).
  rewrite splice1_at by (apply nth_error_Some; rewrite Hi; discriminate).
  split; [apply removeAt_NoDup; exact Hnd|].
  split; [apply removeAt_notin; assumption|].
  split; [|reflexivity].
  intros x Hx. split; [apply removeAt_In|apply removeAt_keeps with (c := c); assumption].
Qed.

Lemma destroyThrottle_registered_witness :
  (NoDup [1; 2; 3]%nat /\ In 2%nat [1; 2; 3]%nat) /\
  let r' := destroyThrottle (mkRegistry [1; 2; 3]%nat []) 2%nat in
  NoDup (bandwidthThrottles r') /\ ~ In 2%nat (bandwidthThrottles r') /\
  (forall x, x <> 2%nat ->
     (In x (bandwidthThrottles r') <-> In x [1; 2; 3]%nat)) /\
  destroyedThrottles r' = [] ++ [2%nat].
Proof.
  assert (H1 : NoDup [1; 2; 3]%nat) by (repeat constructor; simpl; lia).
  assert (H2 : In 2%nat [1; 2; 3]%nat) by (simpl; auto).
  split; [split; assumption|].
  exact (destroyThrottle_registered (mkRegistry [1; 2; 3]%nat []) 2%nat H1 H2).
Defined.

(** [destroy()] on a registry without duplicates empties
    [bandwidthThrottles] but destroys only the throttles at positions
    0, 2, 4, ... counted from the end: each popped throttle's own
    [handleRequestDestroy] no longer finds it and [splice(-1, 1)] drops
    the next one, which is never destroyed. *)
Theorem destroy_every_other (r : Registry) :
  NoDup (bandwidthThrottles r) ->
  destroy r = mkRegistry [] (destroyedThrottles r ++ everyOther (rev (bandwidthThrottles r))).
Proof.
  intros Hnd. destruct r as [l d]. unfold destroy. cbn [bandwidthThrottles destroyedThrottles] in *.
  pose proof (destroyLoop_everyOther (length l) (rev l) d (length l)
                ltac:(rewrite length_rev; lia) (NoDup_rev Hnd)
                ltac:(rewrite length_rev; lia)) as E.
  rewrite rev_involutive in E. exact E.
Qed.

Lemma destroy_every_other_witness :
  NoDup [1; 2; 3; 4; 5]%nat /\
  destroy (mkRegistry [1; 2; 3; 4; 5]%nat []) = mkRegistry [] [5; 3; 1]%nat.
Proof.
  assert (H : NoDup [1; 2; 3; 4; 5]%nat) by (repeat constructor; simpl; lia).
  split; [exact H|].
  exact (destroy_every_other (mkRegistry [1; 2; 3; 4; 5]%nat []) H).
Defined.

End RegistryExtras.


(* ------------------------------------------------------------------ *)
(** ** The request throttle: ending, starting and pass-through *)

Module ThrottleExtras.
Import Double DoubleProofs Throttle ThrottleProofs.

(** [pendingBytesReadIndex + maxBytesToProcess], rounded to a double,
    reaches the count exactly when [endReadIndex] is the count. *)
Lemma endReadIndex_reaches (t : Throttle) (m : MaxBytes) :
  match m with
  | Bytes q =>
      match round (pendingBytesReadIndex t + q) with
      | Fin s => (inject_Z (pendingBytesCount t) <= s)%Q
      | PosInf => True
      | NegInf => False
      end
  | Unbounded => True
  end <->
  exists e, endReadIndexOf t m = Fin e /\ (inject_Z (pendingBytesCount t) <= e)%Q.
Proof.
  destruct m as [q|]; cbn [endReadIndexOf].
  - destruct (round (pendingBytesReadIndex t + q)) as [x| |]; cbn [jsMin].
    + split.
      * intros Hx. exists (Qmin x (inject_Z (pendingBytesCount t))). split; [reflexivity|].
        destruct (Q.min_spec x (inject_Z (pendingBytesCount t))) as [[L E]|[L E]];
          rewrite E; lra.
      * intros (e & E & He). injection E as <-.
        eapply Qle_trans; [exact He|apply Q.le_min_l].
    + split; [intros _; exists (inject_Z (pendingBytesCount t)); split; [reflexivity|apply Qle_refl]
             |intros _; exact I].
    + split; [intros []|intros (e & E & _); discriminate].
  - split; [intros _; exists (inject_Z (pendingBytesCount t)); split; [reflexivity|apply Qle_refl]
           |intros _; exact I].
Qed.

(** Under the invariant, [process] signals stop exactly when the group is
    throttled and no buffered byte is left unread after the call: every
    byte was read already, or [pendingBytesReadIndex + maxBytesToProcess],
    rounded to a double, reaches the count (with the default unbounded
    allowance, always). This includes a call that pushes nothing because
    every buffered byte was already read, even if more chunks are still to
    be written. A signalled stop leaves the throttle destroyed and not in
    flight; otherwise both flags are kept. *)
Theorem process_ends_request (thr : bool) (t : Throttle) (m : MaxBytes) :
  ThrottleInv t ->
  let r := process thr t m in
  (signalledStop r = true <->
     thr = true /\
     ((inject_Z (pendingBytesCount t) <= pendingBytesReadIndex t)%Q \/
      match m with
      | Bytes q =>
          match round (pendingBytesReadIndex t + q) with
          | Fin s => (inject_Z (pendingBytesCount t) <= s)%Q
          | PosInf => True
          | NegInf => False
          end
      | Unbounded => True
      end)) /\
  (signalledStop r = true -> isInFlight (after r) = false /\ destroyed (after r) = true) /\
  (signalledStop r = false ->
     isInFlight (after r) = isInFlight t /\ destroyed (after r) = destroyed t).
Proof.
  intros Hinv r. pose proof Hinv as (H0 & H1 & H2 & H3 & H4).
  destruct (process_spec thr t m Hinv) as (_ & _ & _ & _ & Hcase & Hstop & Hf1 & Hf2).
  fold r in Hcase, Hstop, Hf1, Hf2.
  split; [|split; assumption].
  rewrite Hstop, (endReadIndex_reaches t m).
  destruct Hcase as [(R & _ & Hle)|(e & E & Lt & R & _)]; rewrite R.
  - split; intros [Ht Hc]; (split; [exact Ht|]).
    + left. exact Hc.
    + destruct Hc as [Hc|(e & E & He)]; [exact Hc|].
      specialize (Hle e E). lra.
  - pose proof (endReadIndex_spec t m Hinv) as HE. rewrite E in HE. destruct HE as [He _].
    split; intros [Ht Hc]; (split; [exact Ht|]).
    + right. exists e. split; assumption.
    + destruct Hc as [Hc|(e' & E' & He')]; [lra|].
      rewrite E in E'. injection E' as <-. exact He'.
Qed.

Lemma process_ends_request_witness :
  let t := mkThrottle 10 4 (inject_Z 3) true false in
  ThrottleInv t /\
  let r := process true t (Bytes (1 # 2)) in
  (signalledStop r = true <->
     true = true /\
     ((inject_Z (pendingBytesCount t) <= pendingBytesReadIndex t)%Q \/
      match round (pendingBytesReadIndex t + (1 # 2)) with
      | Fin s => (inject_Z (pendingBytesCount t) <= s)%Q
      | PosInf => True
      | NegInf => False
      end)) /\
  (signalledStop r = true -> isInFlight (after r) = false /\ destroyed (after r) = true) /\
  (signalledStop r = false ->
     isInFlight (after r) = isInFlight t /\ destroyed (after r) = destroyed t).
Proof.
  intros t.
  assert (H : ThrottleInv t).
  { unfold ThrottleInv, t; cbn. split; [unfold Qle; simpl; lia|].
    split; [rewrite <- Zle_Qle; lia|]. split; [lia|]. split; [lia|]. apply onGrid_Z. }
  split; [exact H|].
  exact (process_ends_request true t (Bytes (1 # 2)) H).
Defined.

Lemma process_unthrottled_continues (t : Throttle) (m : MaxBytes) :
  signalledStop (process false t m) = false.
Proof.
  unfold process. destruct (endReadIndexOf t m) as [e| |];
    [destruct (jsPositive _)| |]; cbn beta iota zeta; rewrite orb_true_r; reflexivity.
Qed.





(** With the group unthrottled, a chunk that fits the buffer of a live
    throttle is passed through at once: the count grows by the chunk's
    length, the read cursor catches up with it, the request is not ended
    and no error is raised. Start is signalled unless already in flight. *)
Theorem transform_unthrottled_passes_through (t : Throttle) (n : nat) :
  ThrottleInv t -> destroyed t = false ->
  (pendingBytesCount t + Z.of_nat n <= bufferLength t)%Z ->
  let r := transform false t n in
  threw r = false /\ signalledStart r = negb (isInFlight t) /\
  pendingBytesCount (transformed r) = (pendingBytesCount t + Z.of_nat n)%Z /\
  (pendingBytesReadIndex (transformed r) == inject_Z (pendingBytesCount (transformed r)))%Q /\
  isInFlight (transformed r) = true /\ destroyed (transformed r) = false.
Proof.
  intros Hinv Hd Hfit r. unfold r, transform. rewrite Hd. cbv beta zeta.
  cbn [bufferLength pendingBytesCount pendingBytesReadIndex isInFlight destroyed].
  replace (bufferLength t <? pendingBytesCount t + Z.of_nat n)%Z with false
    by (symmetry; apply Z.ltb_ge; lia).
  set (t2 := mkThrottle (bufferLength t) (pendingBytesCount t + Z.of_nat n)
               (pendingBytesReadIndex t) true false).
  assert (Hinv2 : ThrottleInv t2).
  { pose proof Hinv as (H0 & H1 & H2 & H3 & H4). unfold ThrottleInv, t2; cbn.
    repeat split; try lia; try assumption.
    eapply Qle_trans; [exact H1|]. rewrite <- Zle_Qle. lia. }
  destruct (process_spec false t2 Unbounded Hinv2) as (_ & Hc & _ & _ & Hcase & _ & _ & Hfl).
  cbn [transformed threw signalledStart]. rewrite Hc.
  split; [reflexivity|]. split; [reflexivity|]. split; [reflexivity|].
  pose proof Hinv2 as (_ & H1 & _).
  split.
  - destruct Hcase as [(Hri & _ & Hle)|(e & E & _ & Hri & _)]; rewrite Hri.
    + specialize (Hle _ eq_refl). cbn [pendingBytesCount] in *. lra.
    + cbn [endReadIndexOf] in E. injection E as <-. reflexivity.
  - exact (Hfl (process_unthrottled_continues t2 Unbounded)).
Qed.

Lemma transform_unthrottled_passes_through_witness :
  let t := mkThrottle 10 4 (inject_Z 3) true false in
  (ThrottleInv t /\ destroyed t = false /\ (pendingBytesCount t + Z.of_nat 5 <= bufferLength t)%Z) /\
  let r := transform false t 5 in
  threw r = false /\ signalledStart r = negb (isInFlight t) /\
  pendingBytesCount (transformed r) = (pendingBytesCount t + Z.of_nat 5)%Z /\
  (pendingBytesReadIndex (transformed r) == inject_Z (pendingBytesCount (transformed r)))%Q /\
  isInFlight (transformed r) = true /\ destroyed (transformed r) = false.
Proof.
  intros t.
  assert (H1 : ThrottleInv t).
  { unfold ThrottleInv, t; cbn. split; [unfold Qle; simpl; lia|].
    split; [rewrite <- Zle_Qle; lia|]. split; [lia|]. split; [lia|]. apply onGrid_Z. }
  assert (H2 : destroyed t = false) by reflexivity.
  assert (H3 : (pendingBytesCount t + Z.of_nat 5 <= bufferLength t)%Z) by (cbn; lia).
  split; [split; [exact H1|split; assumption]|].
  exact (transform_unthrottled_passes_through t 5 H1 H2 H3).
Defined.



End ThrottleExtras.


(* ------------------------------------------------------------------ *)
(** ** [partitionInteger] *)

Module PartitionIntegerExtras.
Import Partition.

Lemma map_seq_const (f : nat -> Z) (d : Z) (k : nat) :
  forall start, (1 <= start)%nat -> (forall i, (1 <= i)%nat -> f i = d) ->
  map f (seq start k) = repeat d k.
Proof.
  induction k as [|k IH]; intros start Hs Hf; simpl; [reflexivity|].
  rewrite Hf by exact Hs. rewrite IH by (lia || exact Hf). reflexivity.
Qed.

Lemma fold_right_repeat (d : Z) (k : nat) :
  fold_right Z.add 0 (repeat d k) = Z.of_nat k * d.
Proof. induction k as [|k IH]; cbn [repeat fold_right]; [reflexivity|]. rewrite IH, Nat2Z.inj_succ. ring. Qed.


(** When [partsCount >= 1] divides [value], the smaller set
    [[r, d + 1]] is empty, the period is [Infinity] and index 0 still
    receives [d + 1]: the parts are [d + 1, d, ..., d] and sum to
    [value + 1]. *)
Theorem partitionInteger_divisible (value partsCount : Z) :
  1 <= partsCount -> Z.rem value partsCount = 0 ->
  partitionInteger value partsCount =
    (value / partsCount + 1) :: repeat (value / partsCount) (Z.to_nat partsCount - 1) /\
  fold_right Z.add 0 (partitionInteger value partsCount) = value + 1.
Proof.
  intros Hn Hr.
  assert (Hl : partitionInteger value partsCount =
    (value / partsCount + 1) :: repeat (value / partsCount) (Z.to_nat partsCount - 1)).
  { unfold partitionInteger.
    replace (partsCount <=? 0) with false by (symmetry; apply Z.leb_gt; lia).
    rewrite Hr. unfold sortByCount. cbn [fst snd].
    replace (0 <? partsCount - 0) with true by (symmetry; apply Z.ltb_lt; lia).
    cbn [fst snd js_round_div Z.eqb].
    replace (seq 0 (Z.to_nat partsCount)) with (seq 0 (S (Z.to_nat partsCount - 1)))
      by (f_equal; lia).
    cbn [seq map]. simpl (Z.of_nat 0 =? 0). f_equal.
    apply map_seq_const; [lia|]. intros i Hi.
    replace (Z.of_nat i =? 0) with false by (symmetry; apply Z.eqb_neq; lia).
    reflexivity. }
  split; [exact Hl|].
  rewrite Hl. cbn [fold_right]. rewrite fold_right_repeat.
  assert (Hm : value mod partsCount = 0) by (apply Z.rem_mod_eq_0; lia).
  pose proof (Z.div_mod value partsCount ltac:(lia)) as Hd.
  rewrite Hm in Hd. rewrite Nat2Z.inj_sub by lia. rewrite Z2Nat.id by lia. lia.
Qed.

Lemma partitionInteger_divisible_witness :
  (1 <= 5 /\ Z.rem 10 5 = 0) /\
  partitionInteger 10 5 = (10 / 5 + 1) :: repeat (10 / 5) (Z.to_nat 5 - 1) /\
  fold_right Z.add 0 (partitionInteger 10 5) = 10 + 1.
Proof.
  assert (H1 : 1 <= 5) by lia. assert (H2 : Z.rem 10 5 = 0) by reflexivity.
  split; [split; assumption|].
  exact (partitionInteger_divisible 10 5 H1 H2).
Defined.

End PartitionIntegerExtras.
